(** * Hypergraph rewriting system: a shallow embedding of
      [modules/HypergraphRewritingSystem.mjs] and its properties.

    Numbers are modelled as [Z] (vertex identifiers, counters) or [nat]
    (pattern variables, which index arrays), arrays as lists, the instance
    fields of the class as a record that every method takes and returns.
    The arithmetic on vertex identifiers rounds as the numbers of the
    language do ([JS.num]); the step and the event counter are exact.
    The two collaborators of the class, the spatial hypergraph and the causal
    graph, are interfaces (type classes); a list-based instance of each is
    given further down for evaluation on concrete inputs. *)

From Stdlib Require Import String DecimalString.
From Stdlib Require OrderedTypeEx DecimalZ DecimalPos.
From Stdlib Require Import List ZArith Lia Bool Arith Permutation Sorted.
Import ListNotations.
Open Scope Z_scope.

(** ** JavaScript primitives used by the module *)

Module JS.

(** The largest magnitude up to which every integer is a number of the
    language (a double): [2 ^ 53]. *)
Definition maxSafe : Z := 9007199254740992.

(** The number an arithmetic operation returns when its exact result is the
    integer [z]: the nearest double, ties to the even mantissa.  Up to
    [maxSafe] this is [z] itself.  (From [2 ^ 1024] on the language gives
    [Infinity], which lies outside this model.) *)
Definition num (z : Z) : Z :=
  let a := Z.abs z in
  if a <=? maxSafe then z
  else
    let e := Z.log2 a - 52 in
    let q := Z.shiftr a e in
    let r := a - Z.shiftl q e in
    let half := Z.shiftl 1 (e - 1) in
    let q' := if r <? half then q
              else if half <? r then q + 1
              else if Z.even q then q else q + 1 in
    Z.sgn z * Z.shiftl q' e.

(** The largest length [new Array(len)] accepts, [2 ^ 32 - 1]; a larger one
    is a [RangeError]. *)
Definition arrayLimit : Z := 4294967295.


(** [String(n)] for an integer [n] below [exponentFrom] in magnitude (from
    there on JavaScript switches to the exponent form). *)
Definition toString (z : Z) : string := NilZero.string_of_int (Z.to_int z).

(** [a.join(",")] for an array of integers. *)
Definition join (a : list Z) : string := String.concat "," (map toString a).

(** [a.includes(x)] on an array of strings. *)
Definition includes (a : list string) (x : string) : bool :=
  existsb (String.eqb x) a.

(** [a[v] = x]: in range the slot is replaced.  Beyond the end JavaScript
    extends the array and leaves holes; the filler [hole] stands for them.
    The Match Finder sizes its arrays so that this branch is never taken
    (lemmas [assign_length] and [candidates_length] below). *)
Fixpoint set_at (hole : Z) (v : nat) (x : Z) (a : list Z) : list Z :=
  match v, a with
  | O, [] => [x]
  | O, _ :: a' => x :: a'
  | S v', [] => hole :: set_at hole v' x []
  | S v', y :: a' => y :: set_at hole v' x a'
  end.

(** [Array.prototype.sort(cmp)]: a stable sort; [x] is placed before [y]
    when [cmp x y <= 0] and [x] came first.  For a comparator that is a total
    preorder every stable sort returns this list. *)
Fixpoint insert {A} (cmp : A -> A -> Z) (x : A) (l : list A) : list A :=
  match l with
  | [] => [x]
  | y :: l' => if cmp x y <=? 0 then x :: l else y :: insert cmp x l'
  end.

Definition sort {A} (cmp : A -> A -> Z) (l : list A) : list A :=
  fold_right (insert cmp) [] l.

(** The comparator of [sort()] without argument: elements are compared as
    strings, by code unit. *)
Definition default_cmp (a b : Z) : Z :=
  match String.compare (toString a) (toString b) with
  | Lt => -1
  | Eq => 0
  | Gt => 1
  end.

Definition sort_default (l : list Z) : list Z := sort default_cmp l.

(** [[...new Set(a)]]: the first occurrence of every value, in order. *)
Fixpoint uniq_from (seen : list Z) (a : list Z) : list Z :=
  match a with
  | [] => []
  | x :: a' =>
      if existsb (Z.eqb x) seen then uniq_from seen a'
      else x :: uniq_from (x :: seen) a'
  end.

Definition uniq (a : list Z) : list Z := uniq_from [] a.

(** [Math.max(...a)] on a non-empty array of pattern variables. *)
Definition max_of (a : list nat) : nat := fold_right Nat.max O a.

(** Exchange of the slots [i] and [j] of an array (destructuring swap). *)
Definition swap {A} (i j : nat) (a : list A) : list A :=
  match nth_error a i, nth_error a j with
  | Some x, Some y =>
      let a1 := firstn i a ++ y :: skipn (S i) a in
      firstn j a1 ++ x :: skipn (S j) a1
  | _, _ => a
  end.

End JS.

(** ** Data model *)

Definition Vertex := Z.
Definition Hyperedge := list Vertex.
Definition Pattern := list nat.

(** Structural equality of two vertex sequences. *)
Fixpoint edge_eqb (a b : list Vertex) : bool :=
  match a, b with
  | [], [] => true
  | x :: a', y :: b' => (x =? y) && edge_eqb a' b'
  | _, _ => false
  end.

Definition occurrences (e : list Vertex) (l : list (list Vertex)) : nat :=
  length (filter (edge_eqb e) l).

Record Rule := mkRule { lhs : list Pattern; rhs : list Pattern }.

(** A hit [{ r, m, order }]; [order] is absent until event ordering attaches
    it. *)
Record Match := mkMatch { r : nat; m : list Vertex; order : option (list Z) }.

(** How a method call ends: normally, or by a thrown exception. *)
Inductive completion := Normal | Thrown.

(** ** The collaborators *)

Module Spatial.

(** The hypergraph store ([SpatialGraph.mjs], which is not among the
    sources) as the module uses it: the edges of [E.values()], [maxv],
    [find], [count], [rewrite] and [clear].  The three queries are reads. *)
Class Store (G : Type) := {
  edges : G -> list Hyperedge;
  maxv : G -> Z;
  find : G -> Hyperedge -> list Hyperedge;
  count : G -> list Hyperedge -> nat;
  rewrite : G -> list Hyperedge -> list Hyperedge -> G;
  clear : G -> G
}.

End Spatial.

Module Causal.

(** The causal graph ([CausalGraph.mjs], which is not among the sources) as
    the module uses it: whether a vertex has a label ([L.get(v)] is not
    [undefined]), the first rank of the label of a vertex that has one
    ([L.get(v)[0]], a label being a non-empty array of numbers),
    [rewrite(consumed, produced, {step})] and [clear]. *)
Class Store (C : Type) := {
  labelled : C -> Vertex -> bool;
  rank : C -> Vertex -> Z;
  rewrite : C -> list Vertex -> list Vertex -> Z -> C;
  clear : C -> C
}.

End Causal.

(** ** Pattern Mapper *)

Section Mapper.

Context {G : Type} `{Spatial.Store G}.

(** The arrow function applied to every pattern variable.  The fresh
    vertex is the result of three operations on numbers, [v - map.length],
    [graph.maxv + _] and [_ + 1], each of which rounds. *)
Definition mapVertex (graph : G) (map : list Vertex) (v : nat) : Vertex :=
  if (v <? length map)%nat then nth v map 0
  else
    JS.num (JS.num (Spatial.maxv graph
                    + JS.num (Z.of_nat v - Z.of_nat (length map))) + 1).

Definition mapper (graph : G) (patterns : list Pattern) (map : list Vertex)
  : list Hyperedge :=
  List.map (fun p => List.map (mapVertex graph map) p) patterns.

End Mapper.

(** ** The rewriting system *)

(** A callback invocation, as the host observes it. *)
Inductive Notice :=
| Progress (eventcnt : Z)
| Finished.

(** How one loop iteration of [rewrite] ends. *)
Inductive roundEnd := Continue | Break | Raised.

(** How one call of [rewrite] ends: finished, rescheduled by [setTimeout],
    or left by an exception. *)
Inductive sliceEnd := Done | Rescheduled | Failed.

Section System.

Context {G C : Type} `{Spatial.Store G} `{Causal.Store C}.

(** The host's entropy: the value drawn by the [k]-th call of
    [Math.random()], read modulo the bound it is scaled to. *)
Variable Math_random : nat -> nat.

(** The host's clock: how many further rounds fit into the 500 ms of the
    slice that starts after step [n]. *)
Variable slice_budget : Z -> nat.

(** The instance fields.  [progressfn] and [finishedfn] record whether a
    callback was supplied; [notices] is the trace of their invocations;
    [randoms] counts the calls of [Math.random()] made so far. *)
Record HRS := mkHRS {
  spatial : G;
  causal : C;
  rules : list Rule;
  initial : list Hyperedge;
  step : Z;
  eventcnt : Z;
  maxevents : Z;
  matches : list Match;
  eventordering : string;
  ruleordering : string;
  progressfn : bool;
  finishedfn : bool;
  notices : list Notice;
  randoms : nat
}.

Definition set_matches (s : HRS) (ms : list Match) : HRS :=
  mkHRS (spatial s) (causal s) (rules s) (initial s) (step s) (eventcnt s)
        (maxevents s) ms (eventordering s) (ruleordering s)
        (progressfn s) (finishedfn s) (notices s) (randoms s).

Definition set_step (s : HRS) (n : Z) : HRS :=
  mkHRS (spatial s) (causal s) (rules s) (initial s) n (eventcnt s)
        (maxevents s) (matches s) (eventordering s) (ruleordering s)
        (progressfn s) (finishedfn s) (notices s) (randoms s).

Definition set_randoms (s : HRS) (k : nat) : HRS :=
  mkHRS (spatial s) (causal s) (rules s) (initial s) (step s) (eventcnt s)
        (maxevents s) (matches s) (eventordering s) (ruleordering s)
        (progressfn s) (finishedfn s) (notices s) k.

Definition notify (s : HRS) (n : Notice) : HRS :=
  mkHRS (spatial s) (causal s) (rules s) (initial s) (step s) (eventcnt s)
        (maxevents s) (matches s) (eventordering s) (ruleordering s)
        (progressfn s) (finishedfn s) (notices s ++ [n]) (randoms s).

(** The state after one event: new graphs, counter incremented (exactly:
    a counter stays far below [JS.maxSafe]). *)
Definition set_event (s : HRS) (g : G) (c : C) : HRS :=
  mkHRS g c (rules s) (initial s) (step s) (eventcnt s + 1)
        (maxevents s) (matches s) (eventordering s) (ruleordering s)
        (progressfn s) (finishedfn s) (notices s) (randoms s).

(** *** Match Finder *)

(** The value standing for a read beyond the end of an edge.  The seed
    edge has the arity of the pattern (line 69) and a store returns edges of
    the arity of the template ([ListGraph_find_arity] for the list-based
    one), so the Match Finder does not read it. *)
Definition undefined : Vertex := -1.

(** [for (n = pattern.length - 1; n >= 0; n--) map[pattern[n]] = edge[n]]:
    the last position is written first, so the first occurrence of a
    variable wins. *)
Fixpoint assign (pattern : Pattern) (edge : Hyperedge) (map : list Vertex)
  : list Vertex :=
  match pattern with
  | [] => map
  | v :: pattern' =>
      JS.set_at undefined v (hd undefined edge) (assign pattern' (tl edge) map)
  end.

(** Lines 80-92: every mapping hypothesis is extended by every edge that
    [find] returns for the pattern under it; both loops run downwards. *)
Definition extend (graph : G) (maps : list (list Vertex)) (pattern : Pattern)
  : list (list Vertex) :=
  flat_map
    (fun mk =>
       List.map (fun e => assign pattern e mk)
                (rev (Spatial.find graph (hd [] (mapper graph [pattern] mk)))))
    (rev maps).

(** Lines 72-93: the mapping hypotheses of one rule seeded at one edge,
    once [new Array(maxnum + 1)] has succeeded ([matchRule] tests that). *)
Definition candidates (graph : G) (rule : Rule) (edge : Hyperedge)
  : list (list Vertex) :=
  let maxnum := JS.max_of (concat (lhs rule)) in
  let map0 := assign (hd [] (lhs rule)) edge (repeat (-1) (maxnum + 1)) in
  fold_left (extend graph) (tl (lhs rule)) [map0].

(** Lines 95-97: every hypothesis is pushed once per [count] of the
    left-hand side under it, in the order of the loop ([maps] is the list
    as the loop visits it).  [new Array(count)] throws for a count above
    [JS.arrayLimit]; the hits pushed before stay in the list.  (The language
    puts no bound on the number of arguments of [push(...)]; a bound of the
    engine is not modelled.) *)
Fixpoint replicateFrom (graph : G) (i : nat) (rule : Rule)
  (maps : list (list Vertex)) : completion * list Match :=
  match maps with
  | [] => (Normal, [])
  | mk :: maps' =>
      let n := Spatial.count graph (mapper graph (lhs rule) mk) in
      if JS.arrayLimit <? Z.of_nat n then (Thrown, [])
      else
        let '(c, hits) := replicateFrom graph i rule maps' in
        (c, repeat (mkMatch i mk None) n ++ hits)
  end.

Definition replicate (graph : G) (i : nat) (rule : Rule)
  (mapsNext : list (list Vertex)) : completion * list Match :=
  replicateFrom graph i rule (rev mapsNext).

(** The body of the loop over the rules (lines 66-97), with the hits it
    pushes.  It throws when [rule.lhs[0]] is undefined, when the left-hand
    side has no variable at all ([new Array(-Infinity)]), when the largest
    variable makes [new Array(maxnum + 1)] exceed [JS.arrayLimit], and when
    the replication does. *)
Definition matchRule (graph : G) (i : nat) (rule : Rule) (edge : Hyperedge)
  : completion * list Match :=
  match lhs rule with
  | [] => (Thrown, [])
  | p0 :: _ =>
      if negb (length edge =? length p0)%nat then (Normal, [])
      else match concat (lhs rule) with
           | [] => (Thrown, [])
           | _ :: _ =>
               if JS.arrayLimit
                  <? Z.of_nat (JS.max_of (concat (lhs rule))) + 1
               then (Thrown, [])
               else replicate graph i rule (candidates graph rule edge)
           end
  end.

Fixpoint forRules (graph : G) (i : nat) (rs : list Rule) (edge : Hyperedge)
  (acc : list Match) : completion * list Match :=
  match rs with
  | [] => (Normal, acc)
  | rule :: rs' =>
      match matchRule graph i rule edge with
      | (Thrown, hits) => (Thrown, acc ++ hits)
      | (Normal, hits) => forRules graph (S i) rs' edge (acc ++ hits)
      end
  end.

Fixpoint forEdges (graph : G) (rs : list Rule) (es : list Hyperedge)
  (acc : list Match) : completion * list Match :=
  match es with
  | [] => (Normal, acc)
  | edge :: es' =>
      match forRules graph 0 rs edge acc with
      | (Normal, acc') => forEdges graph rs es' acc'
      | (Thrown, acc') => (Thrown, acc')
      end
  end.

(** [findMatches( this.spatial )]. *)
Definition findMatches (s : HRS) : completion * HRS :=
  if (length (rules s) =? 0)%nat then (Normal, set_matches s [])
  else
    let '(c, ms) :=
      forEdges (spatial s) (rules s) (Spatial.edges (spatial s)) [] in
    (c, set_matches s ms).

(** *** Match Processor *)

Definition joinPattern (p : Pattern) : string := JS.join (List.map Z.of_nat p).

(** Lines 111-115: the rule without the parts common to both sides. *)
Definition factor (rule : Rule) : Rule :=
  {| lhs := filter (fun p => negb (JS.includes (List.map joinPattern (rhs rule))
                                               (joinPattern p))) (lhs rule);
     rhs := filter (fun p => negb (JS.includes (List.map joinPattern (lhs rule))
                                               (joinPattern p))) (rhs rule) |}.

(** [[ ...new Set( add.flat() ) ].sort()]. *)
Definition modifiedOf (add : list Hyperedge) : list Vertex :=
  JS.sort_default (JS.uniq (concat add)).

(** The body of the loop over the hits (lines 120-135).  [None] is an
    exception (no rule at index [r], so that [.lhs] is read from
    [undefined]); the flag says whether the loop is left by [break]. *)
Definition processHit (rulesNol : list Rule) (s : HRS) (h : Match)
  : option (HRS * bool) :=
  match nth_error (rules s) (r h) with
  | None => None
  | Some rule =>
      let hit := mapper (spatial s) (lhs rule) (m h) in
      if (Spatial.count (spatial s) hit =? 0)%nat then Some (s, false)
      else
        match nth_error rulesNol (r h) with
        | None => None
        | Some nol =>
            let del := mapper (spatial s) (lhs nol) (m h) in
            let add := mapper (spatial s) (rhs nol) (m h) in
            let spatial' := Spatial.rewrite (spatial s) del add in
            let causal' :=
              Causal.rewrite (causal s) (m h) (modifiedOf add) (step s) in
            let s' := set_event s spatial' causal' in
            Some (s', eventcnt s' >=? maxevents s')
        end
  end.

Fixpoint processLoop (rulesNol : list Rule) (hits : list Match) (s : HRS)
  : completion * HRS :=
  match hits with
  | [] => (Normal, s)
  | h :: hits' =>
      match processHit rulesNol s h with
      | None => (Thrown, s)
      | Some (s', true) => (Normal, s')
      | Some (s', false) => processLoop rulesNol hits' s'
      end
  end.

(** [processMatches( this.spatial, this.causal )]. *)
Definition processMatches (s : HRS) : completion * HRS :=
  processLoop (List.map factor (rules s)) (matches s) s.

(** *** Scheduler *)

(** Lines 156-159: the shuffle, [i] running down to 1; [k] is the number of
    the next random draw. *)
Fixpoint shuffleFrom (i k : nat) (a : list Match) : list Match :=
  match i with
  | O => a
  | S i' => shuffleFrom i' (S k) (JS.swap i (Math_random k mod (i + 1)) a)
  end.

Definition shuffle (s : HRS) : HRS :=
  let n := (length (matches s) - 1)%nat in
  set_randoms (set_matches s (shuffleFrom n (randoms s) (matches s)))
              (randoms s + n).

(** Line 162: the ordering key of a hit all of whose vertices have a
    label. *)
Definition orderOf (c : C) (h : Match) : list Z :=
  JS.sort (fun a b => b - a) (List.map (Causal.rank c) (m h)).

Definition attachOrder (c : C) (h : Match) : Match :=
  mkMatch (r h) (m h) (Some (orderOf c h)).

(** [match.order] where the comparators read it; they run only after every
    hit has received its key. *)
Definition keyOf (h : Match) : list Z :=
  match order h with
  | Some k => k
  | None => []
  end.

(** The first position below the shorter length at which two keys differ. *)
Fixpoint firstDiff (a b : list Z) : option (Z * Z) :=
  match a, b with
  | x :: a', y :: b' => if x =? y then firstDiff a' b' else Some (x, y)
  | _, _ => None
  end.

(** Lines 165-171. *)
Definition ascending (a b : Match) : Z :=
  match firstDiff (keyOf a) (keyOf b) with
  | Some (x, y) => y - x
  | None => Z.of_nat (length (keyOf b)) - Z.of_nat (length (keyOf a))
  end.

(** Lines 173-179. *)
Definition descending (a b : Match) : Z :=
  match firstDiff (keyOf a) (keyOf b) with
  | Some (x, y) => x - y
  | None => Z.of_nat (length (keyOf a)) - Z.of_nat (length (keyOf b))
  end.

(** Lines 161-163 up to the first hit that holds a vertex without a label:
    the hits before it have received their keys, and reading [[0]] of
    [undefined] throws ([true]). *)
Fixpoint attachWhile (c : C) (hits : list Match) : list Match * bool :=
  match hits with
  | [] => ([], false)
  | h :: hits' =>
      if forallb (Causal.labelled c) (m h) then
        let '(keyed, thrown) := attachWhile c hits' in
        (attachOrder c h :: keyed, thrown)
      else (h :: hits', true)
  end.

(** Whether event ordering throws at line 162, and the state it leaves. *)
Definition keysThrow (s : HRS) : option HRS :=
  if String.eqb (eventordering s) "random" then None
  else
    let '(keyed, thrown) := attachWhile (causal s) (matches s) in
    if thrown then Some (set_matches s keyed) else None.

(** Lines 160-181, when line 162 completes for every hit. *)
Definition orderEvents (s : HRS) : HRS :=
  if String.eqb (eventordering s) "random" then s
  else
    let keyed := List.map (attachOrder (causal s)) (matches s) in
    if String.eqb (eventordering s) "ascending"
    then set_matches s (JS.sort ascending keyed)
    else if String.eqb (eventordering s) "descending"
    then set_matches s (JS.sort descending keyed)
    else set_matches s keyed.

(** Lines 183-189. *)
Definition orderRules (s : HRS) : HRS :=
  if (1 <? length (rules s))%nat then
    if String.eqb (ruleordering s) "index"
    then set_matches s
           (JS.sort (fun a b => Z.of_nat (r a) - Z.of_nat (r b)) (matches s))
    else if String.eqb (ruleordering s) "indexrev"
    then set_matches s
           (JS.sort (fun a b => Z.of_nat (r b) - Z.of_nat (r a)) (matches s))
    else s
  else s.

(** One iteration of the [do ... while] loop (lines 148-193). *)
Definition round (s : HRS) : HRS * roundEnd :=
  let s1 := set_step s (step s + 1) in
  match findMatches s1 with
  | (Thrown, s2) => (s2, Raised)
  | (Normal, s2) =>
      if (length (matches s2) =? 0)%nat then (s2, Break)
      else
        match keysThrow (shuffle s2) with
        | Some s3 => (s3, Raised)
        | None =>
            match processMatches (orderRules (orderEvents (shuffle s2))) with
            | (Thrown, s3) => (s3, Raised)
            | (Normal, s3) =>
                if eventcnt s3 >=? maxevents s3 then (s3, Break)
                else (s3, Continue)
            end
        end
  end.

(** The [do ... while] loop; [budget] is the number of times the clock
    still allows another iteration. *)
Fixpoint slice (budget : nat) (s : HRS) : HRS * completion :=
  match round s with
  | (s', Raised) => (s', Thrown)
  | (s', Break) => (s', Normal)
  | (s', Continue) =>
      match budget with
      | O => (s', Normal)
      | S budget' => slice budget' s'
      end
  end.

(** [rewrite]: one timed slice, the progress notice, and either the finished
    notice or the next timer. *)
Definition rewrite (s : HRS) : HRS * sliceEnd :=
  match slice (slice_budget (step s)) s with
  | (s1, Thrown) => (s1, Failed)
  | (s1, Normal) =>
      let s2 := if progressfn s1 then notify s1 (Progress (eventcnt s1))
                else s1 in
      if (length (matches s2) =? 0)%nat || (eventcnt s2 >=? maxevents s2)
      then
        let s3 := set_matches s2 [] in
        (if finishedfn s3 then notify s3 Finished else s3, Done)
      else (set_matches s2 [], Rescheduled)
  end.


Definition set_maxevents (s : HRS) (n : Z) : HRS :=
  mkHRS (spatial s) (causal s) (rules s) (initial s) (step s) (eventcnt s)
        n (matches s) (eventordering s) (ruleordering s)
        (progressfn s) (finishedfn s) (notices s) (randoms s).

(** [cancel]. *)
Definition cancel (s : HRS) : HRS := set_maxevents s 0.


End System.

Arguments mkHRS {G C}.
Arguments HRS : clear implicits.

(** ** A list-based hypergraph store *)

Module ListGraph.

(** Modelled from the spec: the hypergraph store ([SpatialGraph.mjs] and the
    class it extends are not among the sources).  A multigraph: the live
    edges, one entry per copy, and the highest allocated vertex id. *)
Record t := mk { live : list Hyperedge; top : Z }.

(** A template matches an edge of the same arity whose vertices equal the
    template at its fixed positions; a negative entry is a free position. *)
Fixpoint fits (template edge : Hyperedge) : bool :=
  match template, edge with
  | [], [] => true
  | x :: template', y :: edge' => ((x <? 0) || (x =? y)) && fits template' edge'
  | _, _ => false
  end.

(** Modelled from the spec: [findEdgesMatching], all live edges matching a
    partially bound template. *)
Definition find (g : t) (template : Hyperedge) : list Hyperedge :=
  filter (fits template) (live g).

(** Modelled from the spec: [countOccurrences], the multiplicity of a fully
    concrete edge set: how many disjoint copies of it the live edges hold.
    The spec does not give the empty set a multiplicity; it has none here. *)
Definition count (g : t) (es : list Hyperedge) : nat :=
  match es with
  | [] => O
  | _ :: _ =>
      fold_right Nat.min (length (live g))
        (List.map (fun e => (occurrences e (live g) / occurrences e es)%nat) es)
  end.

Fixpoint remove_one (e : Hyperedge) (l : list Hyperedge) : list Hyperedge :=
  match l with
  | [] => []
  | x :: l' => if edge_eqb e x then l' else x :: remove_one e l'
  end.

(** Modelled from the spec: [applyDelta], removes then adds edges, an absent
    edge being left out silently, and extends [maxv] to the new vertices. *)
Definition rewrite (g : t) (del add : list Hyperedge) : t :=
  mk (fold_left (fun l e => remove_one e l) del (live g) ++ add)
     (fold_right Z.max (top g) (concat add)).

(** Modelled from the spec: [reset], no edges and no vertex allocated. *)
Definition clear (g : t) : t := mk [] (-1).

#[global] Instance store : Spatial.Store t :=
  {| Spatial.edges := live;
     Spatial.maxv := top;
     Spatial.find := find;
     Spatial.count := count;
     Spatial.rewrite := rewrite;
     Spatial.clear := clear |}.

End ListGraph.

(** ** A list-based causal graph *)

Module EventLog.

Record event := mkEvent {
  consumed : list Vertex;
  produced : list Vertex;
  stamp : Z
}.

(** Modelled from the spec: the causal store ([CausalGraph.mjs] is not among
    the sources), as the sequence of recorded events. *)
Definition t := list event.

(** Modelled from the spec: [recordEvent] appends one event. *)
Definition rewrite (c : t) (cons prod : list Vertex) (step : Z) : t :=
  c ++ [mkEvent cons prod step].

Fixpoint firstProducer (v : Vertex) (n : Z) (c : t) : Z :=
  match c with
  | [] => n
  | e :: c' =>
      if existsb (Z.eqb v) (produced e) then n else firstProducer v (n + 1) c'
  end.

(** Modelled from the spec: [rankOf].  The spec does not say how a label is
    computed; here it is the number of the first event that produced the
    vertex. *)
Definition rank (c : t) (v : Vertex) : Z := firstProducer v 0 c.

(** Modelled from the spec: the vertices that carry a label are those that
    some recorded event produced (every vertex of a live edge is introduced
    by a causal event). *)
Definition labelled (c : t) (v : Vertex) : bool :=
  existsb (fun e => existsb (Z.eqb v) (produced e)) c.

(** Modelled from the spec: [reset]. *)
Definition clear (c : t) : t := [].

#[global] Instance store : Causal.Store t :=
  {| Causal.labelled := labelled;
     Causal.rank := rank;
     Causal.rewrite := rewrite;
     Causal.clear := clear |}.

End EventLog.

(** The system over the two list-based stores. *)
Definition System := HRS ListGraph.t EventLog.t.

(** ** Concrete systems used to evaluate the definitions *)

Module Demo.

(** The rule [(x,x,y)(y,z,u) -> (x,v,u)(y,v,z)(v,v,u)] of the README. *)
Definition rule0 : Rule :=
  mkRule [[0; 0; 1]; [1; 2; 3]]%nat [[0; 4; 3]; [1; 4; 2]; [4; 4; 3]]%nat.

(** The initial state [(1,1,2)(2,2,3)(3,3,4)] of the README. *)
Definition initial0 : list Hyperedge := [[1; 1; 2]; [2; 2; 3]; [3; 3; 4]].

Definition graph0 : ListGraph.t := ListGraph.mk initial0 4.

(** A system holding [graph0], an empty causal graph and the given rules,
    hits and event budget, at step 1 with no event counted. *)
Definition system (g : ListGraph.t) (rs : list Rule) (hits : list Match)
  (budget : Z) : System :=
  mkHRS g [] rs [] 1 0 budget hits "random" "mixed" false false [] O.


(** The two overlapping matches of the README. *)
Definition hitA : Match := mkMatch 0 [1; 2; 2; 3] None.
Definition hitB : Match := mkMatch 0 [2; 3; 3; 4] None.

End Demo.

(** ** Vocabulary of the statements *)

(** Order of two integers by their decimal text, code unit by code unit. *)
Definition textLe (a b : Z) : Prop :=
  String.compare (JS.toString a) (JS.toString b) <> Gt.

(** The number of hits for rule [i] and assignment [a] in a hit list. *)
Definition hitsFor (i : nat) (a : list Vertex) (hits : list Match) : nat :=
  length (filter (fun h => (r h =? i)%nat && edge_eqb a (m h)) hits).

(** How often the search of the Match Finder seeded at [edge] ends in the
    assignment [a]. *)
Definition derivationsAt {G} `{Spatial.Store G} (graph : G) (rule : Rule)
  (a : list Vertex) (edge : Hyperedge) : nat :=
  if (length edge =? length (hd [] (lhs rule)))%nat
  then occurrences a (candidates graph rule edge)
  else O.

(** A hit that the Match Processor would apply in the graph [g]: its rule
    exists and the left-hand side under its assignment is counted. *)
Definition validHit {G} `{Spatial.Store G} (g : G) (rs : list Rule)
  (h : Match) : Prop :=
  exists rule, nth_error rs (r h) = Some rule /\
               (1 <= Spatial.count g (mapper g (lhs rule) (m h)))%nat.

(** What the Match Processor leaves alone: everything but the two graphs
    and the event counter. *)
Definition sameControl {G C} (s s' : HRS G C) : Prop :=
  rules s' = rules s /\ initial s' = initial s /\ step s' = step s /\
  maxevents s' = maxevents s /\ matches s' = matches s /\
  eventordering s' = eventordering s /\ ruleordering s' = ruleordering s /\
  progressfn s' = progressfn s /\ finishedfn s' = finishedfn s /\
  notices s' = notices s /\ randoms s' = randoms s.

(** What the shuffle and the orderings of a round do to the system: the
    graph, the rules and the counters stay, the hits stay valid, and a
    non-empty hit list stays non-empty. *)
Definition reordered {G C} `{Spatial.Store G} (s s' : HRS G C) : Prop :=
  spatial s' = spatial s /\ rules s' = rules s /\
  eventcnt s' = eventcnt s /\ maxevents s' = maxevents s /\
  (Forall (validHit (spatial s) (rules s)) (matches s) ->
   Forall (validHit (spatial s) (rules s)) (matches s')) /\
  (matches s <> [] -> matches s' <> []).

(** The lexicographic order of two rank keys; a proper prefix is smaller. *)
Fixpoint lexCompare (a b : list Z) : comparison :=
  match a, b with
  | [], [] => Eq
  | [], _ :: _ => Lt
  | _ :: _, [] => Gt
  | x :: a', y :: b' =>
      match x ?= y with
      | Eq => lexCompare a' b'
      | c => c
      end
  end.

(** A system about to order three hits whose vertices 1 and 2 were produced
    by the events 0 and 1. *)
Definition Demo_ordering : System :=
  mkHRS (ListGraph.mk [] 2)
        [EventLog.mkEvent [] [1] 0; EventLog.mkEvent [] [2] 0]
        [] [] 1 0 10
        [mkMatch 0 [1] None; mkMatch 0 [2] None; mkMatch 0 [1; 1] None]
        "ascending" "mixed" false false [] O.

(** The fresh vertex of the variable [v] is computed without rounding: the
    highest vertex, the offset of [v] and their sum plus one are integers of
    magnitude at most [JS.maxSafe]. *)
Definition exactFresh {G} `{Spatial.Store G} (graph : G) (map : list Vertex)
  (v : nat) : Prop :=
  - JS.maxSafe <= Spatial.maxv graph /\
  Z.of_nat v - Z.of_nat (length map) <= JS.maxSafe /\
  Spatial.maxv graph + (Z.of_nat v - Z.of_nat (length map)) + 1 <= JS.maxSafe.



(** The position of the first occurrence of a variable in a pattern. *)
Fixpoint firstPos (v : nat) (p : Pattern) : option nat :=
  match p with
  | [] => None
  | w :: p' => if (v =? w)%nat then Some O else option_map S (firstPos v p')
  end.

(** The bindings after the pattern [p] has been matched against the edge
    [e]: a variable of [p] holds the vertex of [e] at its first position in
    [p], every other slot holds what it held. *)
Definition boundTo (p : Pattern) (e : Hyperedge) (mp : list Vertex)
  : list Vertex :=
  List.map (fun i => match firstPos i p with
                     | Some k => nth k e undefined
                     | None => nth i mp 0
                     end)
           (seq 0 (length mp)).

(** The number of chains of found edges, one for each of the patterns [ps]
    in turn, each an edge that the store finds for the pattern under the
    bindings so far, after which the bindings are the assignment [a]. *)
Fixpoint chains {G} `{Spatial.Store G} (graph : G) (a : list Vertex)
  (ps : list Pattern) (mp : list Vertex) : nat :=
  match ps with
  | [] => if edge_eqb a mp then 1%nat else O
  | p :: ps' =>
      list_sum
        (List.map (fun e => chains graph a ps' (boundTo p e mp))
                  (Spatial.find graph (List.map (fun v => nth v mp 0) p)))
  end.

(** The number of derivations of the assignment [a]: the seed edges of the
    arity of the first pattern, each with the chains of found edges for the
    remaining patterns that end in [a].  The bindings start as [-1] in each
    of the [maxnum + 1] slots. *)
Definition derivationCount {G} `{Spatial.Store G} (graph : G) (rule : Rule)
  (a : list Vertex) : nat :=
  let p0 := hd [] (lhs rule) in
  let unbound := repeat (-1) (JS.max_of (concat (lhs rule)) + 1) in
  list_sum
    (List.map (fun e0 => if (length e0 =? length p0)%nat
                         then chains graph a (tl (lhs rule))
                                     (boundTo p0 e0 unbound)
                         else O)
              (Spatial.edges graph)).

(** What a run never changes once [run] has set it: the rules, the initial
    edges, the budget, the two ordering policies and the callbacks. *)
Definition sameConfig {G C} (s s' : HRS G C) : Prop :=
  rules s' = rules s /\ initial s' = initial s /\
  maxevents s' = maxevents s /\
  eventordering s' = eventordering s /\ ruleordering s' = ruleordering s /\
  progressfn s' = progressfn s /\ finishedfn s' = finishedfn s.

(** A mapping hypothesis that holds the assignment [a] at the variables
    [vars] and the initial [-1] at every other slot. *)
Definition agreesOn (a : list Vertex) (vars : list nat) (mp : list Vertex)
  : Prop :=
  length mp = length a /\
  forall v, nth v mp 0 =
            if in_dec Nat.eq_dec v vars then nth v a 0
            else if (v <? length a)%nat then -1 else 0.

(** * Properties *)

(** ** Pattern Mapper: substitution and fresh vertices *)

Section MapperFacts.

Context {G : Type} `{Spatial.Store G}.

Lemma mapVertex_bound (graph : G) (map : list Vertex) (v : nat) :
  (v < length map)%nat -> mapVertex graph map v = nth v map 0.
Proof.
  intros Hv. unfold mapVertex.
  destruct (Nat.ltb_spec v (length map)); [reflexivity | lia].
Qed.

Lemma num_exact (z : Z) : Z.abs z <= JS.maxSafe -> JS.num z = z.
Proof.
  intros Hz. unfold JS.num.
  destruct (Z.leb_spec (Z.abs z) JS.maxSafe); [reflexivity | lia].
Qed.

Lemma mapVertex_fresh (graph : G) (map : list Vertex) (v : nat) :
  (length map <= v)%nat -> exactFresh graph map v ->
  mapVertex graph map v =
  Spatial.maxv graph + (Z.of_nat v - Z.of_nat (length map)) + 1.
Proof.
  intros Hv (Hlo & Hoff & Hhi). unfold mapVertex.
  destruct (Nat.ltb_spec v (length map)); [lia|].
  unfold JS.maxSafe in *.
  rewrite (num_exact (Z.of_nat v - Z.of_nat (length map)))
    by (unfold JS.maxSafe; lia).
  rewrite (num_exact (Spatial.maxv graph + _)) by (unfold JS.maxSafe; lia).
  apply num_exact. unfold JS.maxSafe. lia.
Qed.

Lemma mapper_nth (graph : G) (patterns : list Pattern) (map : list Vertex)
  (i j : nat) (p : Pattern) (v : nat) :
  nth_error patterns i = Some p -> nth_error p j = Some v ->
  exists e, nth_error (mapper graph patterns map) i = Some e /\
            nth_error e j = Some (mapVertex graph map v).
Proof.
  intros Hp Hv. unfold mapper.
  exists (List.map (mapVertex graph map) p). split.
  - now apply map_nth_error.
  - now apply map_nth_error.
Qed.

(** C3 (amended). The Pattern Mapper keeps the shape of the patterns and
    puts, at every position holding the variable [v], the bound vertex
    [map[v]] when [v < length map] and, as long as the fresh vertex is
    computed without rounding ([exactFresh]), [maxv + (v - length map) + 1]
    otherwise.  Under the same condition a fresh vertex is strictly greater
    than [maxv] and distinct unbound variables give distinct fresh vertices.
    Equal variables give equal vertices in any case. *)
Theorem mapper_substitution (graph : G) (patterns : list Pattern)
  (map : list Vertex) :
  length (mapper graph patterns map) = length patterns /\
  (forall i j p v,
      nth_error patterns i = Some p -> nth_error p j = Some v ->
      (v < length map)%nat \/ exactFresh graph map v ->
      exists e,
        nth_error (mapper graph patterns map) i = Some e /\
        length e = length p /\
        nth_error e j =
        Some (if (v <? length map)%nat then nth v map 0
              else Spatial.maxv graph
                   + (Z.of_nat v - Z.of_nat (length map)) + 1)) /\
  (forall v, (length map <= v)%nat -> exactFresh graph map v ->
             Spatial.maxv graph < mapVertex graph map v) /\
  (forall v w, (length map <= v)%nat -> (length map <= w)%nat ->
               exactFresh graph map v -> exactFresh graph map w ->
               v <> w -> mapVertex graph map v <> mapVertex graph map w) /\
  (forall i j i' j' p p' v e e',
      nth_error patterns i = Some p -> nth_error p j = Some v ->
      nth_error patterns i' = Some p' -> nth_error p' j' = Some v ->
      nth_error (mapper graph patterns map) i = Some e ->
      nth_error (mapper graph patterns map) i' = Some e' ->
      nth_error e j = nth_error e' j').
Proof.
  repeat split.
  - unfold mapper. now rewrite length_map.
  - intros i j p v Hp Hv Hex.
    exists (List.map (mapVertex graph map) p). repeat split.
    + unfold mapper. now apply map_nth_error.
    + now rewrite length_map.
    + rewrite (map_nth_error (mapVertex graph map) j p Hv). f_equal.
      destruct (Nat.ltb_spec v (length map)) as [Hlt|Hge].
      * now apply mapVertex_bound.
      * destruct Hex as [Hlt|Hex]; [lia|]. now apply mapVertex_fresh.
  - intros v Hv Hex. rewrite mapVertex_fresh by assumption. lia.
  - intros v w Hv Hw Hexv Hexw Hne. rewrite !mapVertex_fresh by assumption.
    lia.
  - intros i j i' j' p p' v e e' Hp Hv Hp' Hv' He He'.
    destruct (mapper_nth graph patterns map i j p v Hp Hv) as (x & Hx & Hxj).
    destruct (mapper_nth graph patterns map i' j' p' v Hp' Hv')
      as (x' & Hx' & Hxj').
    congruence.
Qed.

End MapperFacts.

(** C3 as stated fails where the sums round: at [maxv = 2 ^ 53] the
    variables 0 and 1 both receive the vertex [2 ^ 53], which is [maxv]
    itself, and the variable 0 does not receive [maxv + (0 - 0) + 1]. *)
Lemma mapper_fresh_rounds :
  let graph := ListGraph.mk [] JS.maxSafe in
  mapper graph [[0; 1; 2]%nat] [] =
    [[JS.maxSafe; JS.maxSafe; JS.maxSafe + 4]] /\
  ~ Spatial.maxv graph < mapVertex graph [] 0 /\
  mapVertex graph [] 0 = mapVertex graph [] 1 /\
  mapVertex graph [] 0 <> Spatial.maxv graph + (0 - 0) + 1.
Proof.
  vm_compute. repeat split; intros E; discriminate E.
Qed.

(** The substitution on the graph of the README, whose highest vertex is 4:
    the bound variable 1 and the fresh variable 4. *)
Lemma mapper_substitution_witness :
  exactFresh Demo.graph0 [1; 2; 2; 3] 4 /\
  mapVertex Demo.graph0 [1; 2; 2; 3] 4 = 5 /\
  Spatial.maxv Demo.graph0 < mapVertex Demo.graph0 [1; 2; 2; 3] 4.
Proof.
  assert (Hex : exactFresh Demo.graph0 [1; 2; 2; 3] 4)
    by (vm_compute; repeat split; intros E; discriminate E).
  destruct (mapper_substitution Demo.graph0 [[0; 4; 3]%nat] [1; 2; 2; 3])
    as (_ & _ & Hfresh & _).
  split; [exact Hex|]. split; [reflexivity|].
  exact (Hfresh 4%nat ltac:(simpl; lia) Hex).
Defined.

(** ** Match Processor: one hit *)

Section ProcessorFacts.

Context {G C : Type} `{Spatial.Store G} `{Causal.Store C}.

Lemma nth_error_factor (rs : list Rule) (i : nat) :
  nth_error (List.map factor rs) i = option_map factor (nth_error rs i).
Proof.
  revert i. induction rs as [|x rs IH]; intros [|i]; simpl; auto.
Qed.

Lemma processHit_absent (s : HRS G C) (h : Match) (rule : Rule) :
  nth_error (rules s) (r h) = Some rule ->
  Spatial.count (spatial s) (mapper (spatial s) (lhs rule) (m h)) = O ->
  processHit (List.map factor (rules s)) s h = Some (s, false).
Proof.
  intros Hr Hc. unfold processHit. rewrite Hr. now rewrite Hc.
Qed.

Lemma processHit_present (s : HRS G C) (h : Match) (rule : Rule) :
  nth_error (rules s) (r h) = Some rule ->
  (1 <= Spatial.count (spatial s) (mapper (spatial s) (lhs rule) (m h)))%nat ->
  processHit (List.map factor (rules s)) s h =
  let add := mapper (spatial s) (rhs (factor rule)) (m h) in
  let s' :=
    set_event s
      (Spatial.rewrite (spatial s)
         (mapper (spatial s) (lhs (factor rule)) (m h)) add)
      (Causal.rewrite (causal s) (m h) (modifiedOf add) (step s)) in
  Some (s', eventcnt s + 1 >=? maxevents s).
Proof.
  intros Hr Hc. unfold processHit. rewrite Hr.
  destruct (Nat.eqb_spec
              (Spatial.count (spatial s) (mapper (spatial s) (lhs rule) (m h)))
              0); [lia|].
  rewrite nth_error_factor, Hr. reflexivity.
Qed.

End ProcessorFacts.

(** ** Match Processor: factoring of the common parts *)

Section FactorFacts.

Context {G C : Type} `{Spatial.Store G} `{Causal.Store C}.

Lemma includes_joined (ps : list Pattern) (p : Pattern) :
  In p ps -> JS.includes (List.map joinPattern ps) (joinPattern p) = true.
Proof.
  intros Hin. unfold JS.includes. apply existsb_exists.
  exists (joinPattern p). split.
  - now apply in_map.
  - apply String.eqb_refl.
Qed.

Lemma filter_none {A} (f : A -> bool) (l : list A) :
  (forall x, In x l -> f x = false) -> filter f l = [].
Proof.
  induction l as [|x l IH]; intros Hf; simpl; [reflexivity|].
  rewrite (Hf x (or_introl eq_refl)). apply IH.
  intros y Hy. apply Hf. now right.
Qed.

Lemma factor_drops_shared (rule : Rule) (p : Pattern) :
  In p (lhs rule) -> In p (rhs rule) ->
  ~ In p (lhs (factor rule)) /\ ~ In p (rhs (factor rule)).
Proof.
  intros Hl Hr. unfold factor; simpl. split; intros Hin;
    apply filter_In in Hin; destruct Hin as [_ Hneg];
    rewrite includes_joined in Hneg by assumption; discriminate.
Qed.

Lemma factor_same_patterns (rule : Rule) :
  (forall p, In p (lhs rule) <-> In p (rhs rule)) ->
  factor rule = mkRule [] [].
Proof.
  intros Hsame. unfold factor. f_equal; apply filter_none; intros p Hp;
    rewrite includes_joined; try reflexivity; now apply Hsame.
Qed.

(** A rule whose factored delta is empty hands the store an empty deletion
    and an empty addition, if it is applied at all. *)
Lemma processHit_empty_delta (s s' : HRS G C) (h : Match) (rule : Rule)
  (stop : bool) :
  factor rule = mkRule [] [] ->
  nth_error (rules s) (r h) = Some rule ->
  processHit (List.map factor (rules s)) s h = Some (s', stop) ->
  spatial s' = spatial s \/
  spatial s' = Spatial.rewrite (spatial s) [] [].
Proof.
  intros Hf Hr Hp. unfold processHit in Hp.
  rewrite nth_error_factor, Hr in Hp. cbn [option_map] in Hp.
  rewrite Hf in Hp. cbn [lhs rhs mapper List.map] in Hp.
  destruct (Spatial.count (spatial s) (mapper (spatial s) (lhs rule) (m h))
            =? 0)%nat; inversion Hp; subst; simpl; auto.
Qed.

(** C7. For a rule whose two sides are structurally equal the factored
    delta is empty on both sides; applying it hands the store an empty
    deletion and an empty addition, so on a store that an empty delta leaves
    alone no edge is removed or added. *)
Theorem factor_identical_sides (rule : Rule) :
  lhs rule = rhs rule ->
  factor rule = mkRule [] [] /\
  forall (s s' : HRS G C) (h : Match) (stop : bool),
    nth_error (rules s) (r h) = Some rule ->
    processHit (List.map factor (rules s)) s h = Some (s', stop) ->
    (spatial s' = spatial s \/
     spatial s' = Spatial.rewrite (spatial s) [] []) /\
    ((forall g : G, Spatial.edges (Spatial.rewrite g [] []) = Spatial.edges g) ->
     Spatial.edges (spatial s') = Spatial.edges (spatial s)).
Proof.
  intros Heq.
  assert (Hf : factor rule = mkRule [] []).
  { apply factor_same_patterns. intros p. now rewrite Heq. }
  split; [exact Hf|].
  intros s s' h stop Hr Hp.
  pose proof (processHit_empty_delta s s' h rule stop Hf Hr Hp) as Hd.
  split; [exact Hd|].
  intros Hnil. destruct Hd as [-> | ->]; [reflexivity | apply Hnil].
Qed.

(** C10. Factoring ignores multiplicity: a pattern that occurs on both
    sides disappears from both, however often it occurs on either.  For
    [lhs = [P, P]] and [rhs = [P]] the delta is empty on both sides and an
    application hands the store an empty deletion, so no copy of [P] is
    removed. *)
Theorem factor_ignores_multiplicity :
  (forall (rule : Rule) (p : Pattern),
     In p (lhs rule) -> In p (rhs rule) ->
     ~ In p (lhs (factor rule)) /\ ~ In p (rhs (factor rule))) /\
  (forall P : Pattern, factor (mkRule [P; P] [P]) = mkRule [] []) /\
  (forall (P : Pattern) (s s' : HRS G C) (h : Match) (stop : bool),
     nth_error (rules s) (r h) = Some (mkRule [P; P] [P]) ->
     processHit (List.map factor (rules s)) s h = Some (s', stop) ->
     (spatial s' = spatial s \/
      spatial s' = Spatial.rewrite (spatial s) [] []) /\
     ((forall g : G,
         Spatial.edges (Spatial.rewrite g [] []) = Spatial.edges g) ->
      Spatial.edges (spatial s') = Spatial.edges (spatial s))).
Proof.
  assert (Hpp : forall P : Pattern, factor (mkRule [P; P] [P]) = mkRule [] []).
  { intros P. apply factor_same_patterns. intros p; simpl. tauto. }
  split; [exact factor_drops_shared|]. split; [exact Hpp|].
  intros P s s' h stop Hr Hp.
  pose proof (processHit_empty_delta s s' h _ stop (Hpp P) Hr Hp) as Hd.
  split; [exact Hd|].
  intros Hnil. destruct Hd as [-> | ->]; [reflexivity | apply Hnil].
Qed.

End FactorFacts.

Lemma ListGraph_rewrite_nil (g : ListGraph.t) :
  Spatial.edges (Spatial.rewrite g [] []) = Spatial.edges g.
Proof. simpl. apply app_nil_r. Qed.

(** The rule [(x,y) -> (x,y)] applied to the edge [(1,2)]. *)
Lemma factor_identical_sides_witness :
  let rule := mkRule [[0; 1]]%nat [[0; 1]]%nat in
  let s := Demo.system (ListGraph.mk [[1; 2]] 2) [rule]
                       [mkMatch 0 [1; 2] None] 10 in
  lhs rule = rhs rule /\
  factor rule = mkRule [] [] /\
  forall s' stop,
    processHit (List.map factor (rules s)) s (mkMatch 0 [1; 2] None)
    = Some (s', stop) ->
    Spatial.edges (spatial s') = [[1; 2]].
Proof.
  intros rule s. split; [reflexivity|].
  destruct (@factor_identical_sides ListGraph.t EventLog.t _ _ rule eq_refl)
    as (Hf & Hp).
  split; [exact Hf|].
  intros s' stop Hs.
  destruct (Hp s s' (mkMatch 0 [1; 2] None) stop eq_refl Hs) as (_ & Hedges).
  exact (Hedges ListGraph_rewrite_nil).
Defined.

(** ** [Array.prototype.sort]: permutation, order, stability *)

Section SortFacts.

Context {A : Type} (cmp : A -> A -> Z).

Lemma insert_perm (x : A) (l : list A) :
  Permutation (JS.insert cmp x l) (x :: l).
Proof.
  induction l as [|y l IH]; simpl; [reflexivity|].
  destruct (cmp x y <=? 0); [reflexivity|].
  rewrite IH. apply perm_swap.
Qed.

Lemma sort_perm (l : list A) : Permutation (JS.sort cmp l) l.
Proof.
  induction l as [|x l IH]; simpl; [reflexivity|].
  rewrite insert_perm. now apply perm_skip.
Qed.

Lemma sort_In (l : list A) (x : A) : In x (JS.sort cmp l) <-> In x l.
Proof.
  split; apply Permutation_in; [|symmetry]; apply sort_perm.
Qed.

Lemma sort_length (l : list A) : length (JS.sort cmp l) = length l.
Proof. apply Permutation_length, sort_perm. Qed.

(** A class of elements that the comparator never puts one after the other
    keeps its order. *)
Lemma insert_filter (P : A -> bool) (x : A) (l : list A) :
  (forall y, P x = true -> P y = true -> cmp x y <= 0) ->
  filter P (JS.insert cmp x l) = filter P (x :: l).
Proof.
  intros Hcls. induction l as [|y l IH]; simpl; [reflexivity|].
  destruct (Z.leb_spec (cmp x y) 0) as [Hle|Hgt]; [reflexivity|].
  simpl. simpl in IH. rewrite IH.
  destruct (P x) eqn:Px, (P y) eqn:Py; try reflexivity.
  specialize (Hcls y eq_refl Py). lia.
Qed.

Lemma sort_stable (P : A -> bool) (l : list A) :
  (forall x y, P x = true -> P y = true -> cmp x y <= 0) ->
  filter P (JS.sort cmp l) = filter P l.
Proof.
  intros Hcls. induction l as [|x l IH]; simpl; [reflexivity|].
  rewrite insert_filter by (intros y; apply Hcls).
  simpl. now rewrite IH.
Qed.

Hypothesis cmp_total : forall x y, 0 < cmp x y -> cmp y x <= 0.
Hypothesis cmp_trans :
  forall x y z, cmp x y <= 0 -> cmp y z <= 0 -> cmp x z <= 0.

Lemma insert_sorted (x : A) (l : list A) :
  StronglySorted (fun a b => cmp a b <= 0) l ->
  StronglySorted (fun a b => cmp a b <= 0) (JS.insert cmp x l).
Proof.
  induction l as [|y l IH]; intros Hs; simpl.
  - constructor; constructor.
  - inversion Hs as [|? ? Hl Hy]; subst.
    destruct (Z.leb_spec (cmp x y) 0) as [Hle|Hgt].
    + constructor; [assumption|]. constructor; [assumption|].
      rewrite Forall_forall in *. intros z Hz. eauto.
    + constructor; [now apply IH|].
      rewrite Forall_forall in *. intros z Hz.
      apply (Permutation_in _ (insert_perm x l)) in Hz.
      destruct Hz as [<-|Hz]; auto.
Qed.

Lemma sort_sorted (l : list A) :
  StronglySorted (fun a b => cmp a b <= 0) (JS.sort cmp l).
Proof.
  induction l as [|x l IH]; simpl; [constructor | now apply insert_sorted].
Qed.

End SortFacts.

Lemma StronglySorted_weaken {A} (R S : A -> A -> Prop) (l : list A) :
  (forall a b, R a b -> S a b) -> StronglySorted R l -> StronglySorted S l.
Proof.
  intros HRS Hs. induction Hs as [|a l Hs IH Hall]; constructor; auto.
  eapply Forall_impl; [|exact Hall]. auto.
Qed.

(** ** The produced set of a causal event *)

Section ModifiedFacts.

Lemma uniq_from_In (seen a : list Z) (v : Z) :
  In v (JS.uniq_from seen a) <-> In v a /\ ~ In v seen.
Proof.
  revert seen. induction a as [|x a IH]; intros seen; simpl; [tauto|].
  destruct (existsb (Z.eqb x) seen) eqn:Hx.
  - apply existsb_exists in Hx. destruct Hx as (y & Hy & Hxy).
    apply Z.eqb_eq in Hxy. subst y.
    rewrite IH. split; [tauto|].
    intros [[->|Hin] Hn]; tauto.
  - assert (Hnx : ~ In x seen).
    { intros Hin. apply Bool.not_true_iff_false in Hx. apply Hx.
      apply existsb_exists. exists x. split; [assumption | apply Z.eqb_refl]. }
    simpl. rewrite IH. simpl. split.
    + intros [->|[Hin Hn]]; [tauto|]. split; [tauto|]. tauto.
    + intros [[->|Hin] Hn]; [tauto|].
      destruct (Z.eq_dec x v) as [->|Hne]; [tauto|]. right. split; [assumption|].
      intros [E|E]; tauto.
Qed.

Lemma uniq_from_NoDup (seen a : list Z) : NoDup (JS.uniq_from seen a).
Proof.
  revert seen. induction a as [|x a IH]; intros seen; simpl; [constructor|].
  destruct (existsb (Z.eqb x) seen); [apply IH|].
  constructor; [|apply IH].
  rewrite uniq_from_In. simpl. tauto.
Qed.

Lemma default_cmp_le (a b : Z) : JS.default_cmp a b <= 0 <-> textLe a b.
Proof.
  unfold JS.default_cmp, textLe.
  destruct (String.compare (JS.toString a) (JS.toString b));
    split; intros; try lia; try congruence.
Qed.

Lemma string_compare_trans (a b c : string) :
  String.compare a b <> Gt -> String.compare b c <> Gt ->
  String.compare a c <> Gt.
Proof.
  intros Hab Hbc Hac.
  assert (Hca : OrderedTypeEx.String_as_OT.lt c a).
  { apply OrderedTypeEx.String_as_OT.cmp_lt.
    unfold OrderedTypeEx.String_as_OT.cmp.
    rewrite String.compare_antisym, Hac. reflexivity. }
  destruct (String.compare a b) eqn:Eab; [| |congruence].
  - apply OrderedTypeEx.String_as_OT.cmp_eq in Eab. subst b.
    apply Hbc. rewrite String.compare_antisym.
    apply OrderedTypeEx.String_as_OT.cmp_lt in Hca.
    unfold OrderedTypeEx.String_as_OT.cmp in Hca. now rewrite Hca.
  - apply OrderedTypeEx.String_as_OT.cmp_lt in Eab.
    pose proof (OrderedTypeEx.String_as_OT.lt_trans _ _ _ Hca Eab) as Hcb.
    apply OrderedTypeEx.String_as_OT.cmp_lt in Hcb.
    unfold OrderedTypeEx.String_as_OT.cmp in Hcb.
    apply Hbc. rewrite String.compare_antisym, Hcb. reflexivity.
Qed.

Lemma modifiedOf_spec (add : list Hyperedge) :
  NoDup (modifiedOf add) /\
  (forall v, In v (modifiedOf add) <-> exists e, In e add /\ In v e) /\
  StronglySorted textLe (modifiedOf add).
Proof.
  unfold modifiedOf, JS.sort_default. repeat split.
  - eapply Permutation_NoDup; [symmetry; apply sort_perm|].
    apply uniq_from_NoDup.
  - intros Hin. apply sort_In in Hin. apply uniq_from_In in Hin.
    destruct Hin as [Hin _]. apply in_concat in Hin.
    destruct Hin as (e & He & Hv). eauto.
  - intros (e & He & Hv). apply sort_In. apply uniq_from_In. split; [|auto].
    apply in_concat. eauto.
  - eapply StronglySorted_weaken;
      [|apply (sort_sorted JS.default_cmp)].
    + intros a b. apply default_cmp_le.
    + intros x y Hgt. apply default_cmp_le. unfold textLe.
      unfold JS.default_cmp in Hgt. rewrite String.compare_antisym.
      destruct (String.compare (JS.toString x) (JS.toString y));
        simpl; try lia; congruence.
    + intros x y z Hxy Hyz. apply default_cmp_le.
      apply default_cmp_le in Hxy, Hyz. unfold textLe in *.
      eapply string_compare_trans; eassumption.
Qed.

End ModifiedFacts.

(** ** Match Processor: re-validation of every hit *)

Section Revalidation.

Context {G C : Type} `{Spatial.Store G} `{Causal.Store C}.

(** C1. A hit is applied only if the full left-hand side of its rule,
    substituted under the hit's assignment, is counted at least once in the
    current hypergraph.  A hit whose left-hand side is absent is skipped: the
    state (hypergraph, causal graph, event counter) is what it was and the
    loop goes on with the next hit.  A hit whose left-hand side is present is
    rewritten with the factored delta, recorded as one causal event that
    produces each vertex of the added edges once, and counted once; the loop
    then stops if the budget is reached and otherwise goes on with the next
    hit in the new state, where that hit is tested in the same way. *)
Theorem processMatches_revalidates (s : HRS G C) (h : Match)
  (rest : list Match) (rule : Rule) :
  nth_error (rules s) (r h) = Some rule ->
  (Spatial.count (spatial s) (mapper (spatial s) (lhs rule) (m h)) = O ->
   processHit (List.map factor (rules s)) s h = Some (s, false) /\
   processLoop (List.map factor (rules s)) (h :: rest) s =
   processLoop (List.map factor (rules s)) rest s) /\
  ((1 <= Spatial.count (spatial s) (mapper (spatial s) (lhs rule) (m h)))%nat ->
   Z.abs (eventcnt s) < JS.maxSafe ->
   exists s',
     spatial s' =
       Spatial.rewrite (spatial s)
         (mapper (spatial s) (lhs (factor rule)) (m h))
         (mapper (spatial s) (rhs (factor rule)) (m h)) /\
     (exists produced,
        causal s' = Causal.rewrite (causal s) (m h) produced (step s) /\
        NoDup produced /\
        forall v, In v produced <->
                  exists e,
                    In e (mapper (spatial s) (rhs (factor rule)) (m h)) /\
                    In v e) /\
     eventcnt s' = eventcnt s + 1 /\
     sameControl s s' /\
     processHit (List.map factor (rules s)) s h =
       Some (s', eventcnt s' >=? maxevents s) /\
     processLoop (List.map factor (rules s)) (h :: rest) s =
       if eventcnt s' >=? maxevents s then (Normal, s')
       else processLoop (List.map factor (rules s')) rest s') /\
  (forall s' stop,
     processHit (List.map factor (rules s)) s h = Some (s', stop) ->
     spatial s' <> spatial s \/ causal s' <> causal s \/
     eventcnt s' <> eventcnt s ->
     (1 <= Spatial.count (spatial s)
             (mapper (spatial s) (lhs rule) (m h)))%nat).
Proof.
  intros Hr. split; [|split].
  - intros Hc. split.
    + now apply processHit_absent with rule.
    + simpl. now rewrite (processHit_absent s h rule Hr Hc).
  - intros Hc _.
    pose proof (processHit_present s h rule Hr Hc) as Hp. cbv zeta in Hp.
    set (s' := set_event s
                 (Spatial.rewrite (spatial s)
                    (mapper (spatial s) (lhs (factor rule)) (m h))
                    (mapper (spatial s) (rhs (factor rule)) (m h)))
                 (Causal.rewrite (causal s) (m h)
                    (modifiedOf (mapper (spatial s) (rhs (factor rule)) (m h)))
                    (step s))) in *.
    exists s'. split; [reflexivity|]. split.
    { eexists. split; [reflexivity|].
      destruct (modifiedOf_spec
                  (mapper (spatial s) (rhs (factor rule)) (m h)))
        as (Hnd & Hin & _).
      split; assumption. }
    split; [reflexivity|]. split; [repeat split|].
    split; [exact Hp|].
    cbn [processLoop]. rewrite Hp.
    change (eventcnt s') with (eventcnt s + 1).
    change (rules s') with (rules s).
    destruct (eventcnt s + 1 >=? maxevents s); reflexivity.
  - intros s' stop Hp Hchg.
    destruct (Spatial.count (spatial s) (mapper (spatial s) (lhs rule) (m h)))
      eqn:Hc; [|lia].
    rewrite (processHit_absent s h rule Hr Hc) in Hp.
    inversion Hp; subst. destruct Hchg as [E|[E|E]]; now elim E.
Qed.

End Revalidation.

(** The two overlapping matches of the README in one hit list: the first is
    applied and consumes the edge [(2,2,3)]; the second, valid when the list
    was drawn up, is then absent and skipped. *)
Lemma processMatches_revalidates_witness :
  let s := Demo.system Demo.graph0 [Demo.rule0] [Demo.hitA; Demo.hitB] 10 in
  let s1 :=
    Demo.system
      (ListGraph.mk [[3; 3; 4]; [1; 5; 3]; [2; 5; 2]; [5; 5; 3]] 5)
      [Demo.rule0] [Demo.hitA; Demo.hitB] 10 in
  nth_error (rules s) (r Demo.hitA) = Some Demo.rule0 /\
  Spatial.count (spatial s)
    (mapper (spatial s) (lhs Demo.rule0) (m Demo.hitB)) = 1%nat /\
  Spatial.count (spatial s1)
    (mapper (spatial s1) (lhs Demo.rule0) (m Demo.hitB)) = O /\
  spatial (snd (processMatches s)) = spatial s1 /\
  eventcnt (snd (processMatches s)) = 1.
Proof.
  intros s s1.
  assert (Hr : nth_error (rules s) (r Demo.hitA) = Some Demo.rule0)
    by reflexivity.
  assert (Hc : (1 <= Spatial.count (spatial s)
                       (mapper (spatial s) (lhs Demo.rule0) (m Demo.hitA)))%nat)
    by (vm_compute; lia).
  assert (Hn : Z.abs (eventcnt s) < JS.maxSafe) by reflexivity.
  destruct (processMatches_revalidates s Demo.hitA [Demo.hitB] Demo.rule0 Hr)
    as (_ & Hpresent & _).
  destruct (Hpresent Hc Hn)
    as (s' & Hsp & _ & Hcnt & Hctl & _ & Hloop).
  assert (Hstop : (eventcnt s' >=? maxevents s) = false)
    by (rewrite Hcnt; reflexivity).
  rewrite Hstop in Hloop.
  assert (Hr' : nth_error (rules s') (r Demo.hitB) = Some Demo.rule0)
    by (destruct Hctl as (-> & _); reflexivity).
  assert (Hsp1 : spatial s' = spatial s1) by (rewrite Hsp; reflexivity).
  assert (Hc' : Spatial.count (spatial s')
                  (mapper (spatial s') (lhs Demo.rule0) (m Demo.hitB)) = O)
    by (rewrite Hsp1; reflexivity).
  destruct (processMatches_revalidates s' Demo.hitB [] Demo.rule0 Hr')
    as (Habsent & _).
  destruct (Habsent Hc') as (_ & Hskip).
  rewrite Hskip in Hloop.
  split; [exact Hr|]. split; [reflexivity|]. split; [reflexivity|].
  unfold processMatches.
  change (matches s) with [Demo.hitA; Demo.hitB].
  rewrite Hloop. cbn [processLoop snd].
  split; [exact Hsp1|]. rewrite Hcnt. reflexivity.
Defined.

Section EventFacts.

Context {G C : Type} `{Spatial.Store G} `{Causal.Store C}.


End EventFacts.


(** ** Match Finder: array bounds *)

Section BoundsFacts.

Context {G : Type} `{Spatial.Store G}.

Lemma set_at_length (hole : Z) (v : nat) (x : Z) (a : list Z) :
  (v < length a)%nat -> length (JS.set_at hole v x a) = length a.
Proof.
  revert a. induction v as [|v IH]; intros [|y a] Hv; simpl in *; try lia.
  rewrite IH; lia.
Qed.

Lemma nth_set_at (hole x d : Z) (v w : nat) (l : list Z) :
  (v < length l)%nat ->
  nth w (JS.set_at hole v x l) d = if (w =? v)%nat then x else nth w l d.
Proof.
  revert w l. induction v as [|v IH]; intros [|w] [|y l] Hv; simpl in *;
    try lia; try reflexivity.
  apply IH. lia.
Qed.

(** The writes of [assign] stay inside an array that has a slot for every
    variable of the pattern. *)
Lemma assign_length (pattern : Pattern) :
  forall (edge : Hyperedge) (map : list Vertex),
    (forall v, In v pattern -> (v < length map)%nat) ->
    length (assign pattern edge map) = length map.
Proof.
  induction pattern as [|v pattern IH]; intros edge map Hin; cbn [assign];
    [reflexivity|].
  assert (Hl : length (assign pattern (tl edge) map) = length map).
  { apply IH. intros w Hw. apply Hin. now right. }
  rewrite set_at_length; [assumption|].
  pose proof (Hin v (or_introl eq_refl)) as Hv.
  unfold Vertex, Hyperedge in *. lia.
Qed.

Lemma max_of_ge (a : list nat) (v : nat) :
  In v a -> (v <= JS.max_of a)%nat.
Proof.
  induction a as [|x a IH]; simpl; [tauto|].
  intros [->|Hin]; [lia|]. specialize (IH Hin). lia.
Qed.

Lemma extend_length (graph : G) (n : nat) (maps : list (list Vertex))
  (pattern : Pattern) :
  (forall v, In v pattern -> (v < n)%nat) ->
  Forall (fun mk => length mk = n) maps ->
  Forall (fun mk => length mk = n) (extend graph maps pattern).
Proof.
  intros Hp Hm. unfold extend. apply Forall_flat_map.
  apply Forall_rev. eapply Forall_impl; [|exact Hm].
  intros mk Hmk. apply Forall_map. apply Forall_forall. intros e _.
  rewrite assign_length; [assumption|].
  intros v Hv. rewrite Hmk. now apply Hp.
Qed.

(** Every mapping hypothesis has one slot per variable of the left-hand
    side: no write of the Match Finder extends an array. *)
Lemma candidates_length (graph : G) (rule : Rule) (edge : Hyperedge) :
  Forall (fun mk => length mk = S (JS.max_of (concat (lhs rule))))
         (candidates graph rule edge).
Proof.
  unfold candidates.
  set (n := S (JS.max_of (concat (lhs rule)))).
  assert (Hvars : forall p v, In p (lhs rule) -> In v p -> (v < n)%nat).
  { intros p v Hp Hv. unfold n. apply Nat.lt_succ_r, max_of_ge.
    apply in_concat. eauto. }
  assert (Hseed : Forall (fun mk => length mk = n)
            [assign (hd [] (lhs rule)) edge
                    (repeat (-1) (JS.max_of (concat (lhs rule)) + 1))]).
  { constructor; [|constructor].
    rewrite assign_length; rewrite repeat_length; [unfold n; lia|].
    intros v Hv. destruct (lhs rule) as [|p0 ps] eqn:Hl; [contradiction|].
    simpl in Hv. specialize (Hvars p0 v (or_introl eq_refl) Hv).
    unfold n in Hvars. lia. }
  assert (Htl : forall p, In p (tl (lhs rule)) -> In p (lhs rule)).
  { destruct (lhs rule); simpl; auto. }
  revert Hseed Htl.
  generalize (tl (lhs rule)) as ps.
  generalize [assign (hd [] (lhs rule)) edge
                     (repeat (-1) (JS.max_of (concat (lhs rule)) + 1))]
    as maps.
  intros maps ps. revert maps.
  induction ps as [|p ps IH]; intros maps Hm Hin; simpl; [assumption|].
  apply IH.
  - apply extend_length; [|assumption].
    intros v Hv. apply (Hvars p v); [apply Hin; now left | assumption].
  - intros q Hq. apply Hin. now right.
Qed.

End BoundsFacts.

(** The list-based store returns edges of the arity of the template, so
    the Match Finder reads no slot beyond the end of a found edge. *)
Lemma ListGraph_find_arity (g : ListGraph.t) (template e : Hyperedge) :
  In e (Spatial.find g template) -> length e = length template.
Proof.
  simpl. unfold ListGraph.find. intros Hin. apply filter_In in Hin.
  destruct Hin as [_ Hfit]. revert e Hfit.
  induction template as [|x template IH]; intros [|y e] Hfit; simpl in *;
    try discriminate; [reflexivity|].
  apply andb_true_iff in Hfit. destruct Hfit as [_ Hfit].
  f_equal. now apply IH.
Qed.

(** ** Match Finder: frame and multiplicity *)

Section FinderFacts.

Context {G C : Type} `{Spatial.Store G} `{Causal.Store C}.

Lemma findMatches_only_matches (s : HRS G C) :
  snd (findMatches s) = set_matches s (matches (snd (findMatches s))).
Proof.
  unfold findMatches.
  destruct (length (rules s) =? 0)%nat; [reflexivity|].
  destruct (forEdges (spatial s) (rules s) (Spatial.edges (spatial s)) []).
  reflexivity.
Qed.

(** C8. One call to the Match Finder changes no field of the system but the
    hit list: the hypergraph (and the causal graph, the rules, the counters)
    are what they were, whether the call returns or throws.  With no rule it
    returns normally with an empty hit list. *)
Theorem findMatches_frame (s : HRS G C) :
  spatial (snd (findMatches s)) = spatial s /\
  snd (findMatches s) = set_matches s (matches (snd (findMatches s))) /\
  (rules s = [] -> findMatches s = (Normal, set_matches s [])).
Proof.
  split; [|split].
  - rewrite findMatches_only_matches. reflexivity.
  - apply findMatches_only_matches.
  - intros Hr. unfold findMatches. now rewrite Hr.
Qed.

End FinderFacts.

Section MultiplicityFacts.

Context {G C : Type} `{Spatial.Store G} `{Causal.Store C}.

Lemma edge_eqb_eq (a b : list Vertex) : edge_eqb a b = true <-> a = b.
Proof.
  revert b. induction a as [|x a IH]; intros [|y b]; simpl;
    try (split; [discriminate | congruence]); [tauto|].
  rewrite andb_true_iff, Z.eqb_eq, IH. split.
  - intros [-> ->]. reflexivity.
  - intros E. inversion E. auto.
Qed.

Lemma hitsFor_app (i : nat) (a : list Vertex) (l1 l2 : list Match) :
  hitsFor i a (l1 ++ l2) = (hitsFor i a l1 + hitsFor i a l2)%nat.
Proof. unfold hitsFor. now rewrite filter_app, length_app. Qed.

Lemma hitsFor_repeat (i j : nat) (a mk : list Vertex) (n : nat) :
  hitsFor i a (repeat (mkMatch j mk None) n) =
  if (j =? i)%nat && edge_eqb a mk then n else O.
Proof.
  unfold hitsFor. induction n as [|n IH]; simpl.
  - now destruct ((j =? i)%nat && edge_eqb a mk).
  - destruct ((j =? i)%nat && edge_eqb a mk); simpl; now rewrite IH.
Qed.

Lemma occurrences_rev (a : list Vertex) (l : list (list Vertex)) :
  occurrences a (rev l) = occurrences a l.
Proof. unfold occurrences. now rewrite filter_rev, length_rev. Qed.

Lemma hitsFor_flat_map (graph : G) (i j : nat) (rule : Rule)
  (a : list Vertex) (maps : list (list Vertex)) :
  hitsFor i a
    (flat_map (fun mk => repeat (mkMatch j mk None)
                           (Spatial.count graph (mapper graph (lhs rule) mk)))
              maps) =
  if (j =? i)%nat
  then (Spatial.count graph (mapper graph (lhs rule) a) * occurrences a maps)%nat
  else O.
Proof.
  induction maps as [|mk maps IH]; simpl.
  - unfold hitsFor, occurrences. simpl. destruct (j =? i)%nat; lia.
  - rewrite hitsFor_app, hitsFor_repeat, IH.
    destruct (j =? i)%nat; simpl; [|reflexivity].
    unfold occurrences. simpl.
    destruct (edge_eqb a mk) eqn:E; simpl.
    + apply edge_eqb_eq in E. subst mk. lia.
    + reflexivity.
Qed.

Lemma replicateFrom_normal (graph : G) (j : nat) (rule : Rule)
  (maps : list (list Vertex)) (hits : list Match) :
  replicateFrom graph j rule maps = (Normal, hits) ->
  hits = flat_map (fun mk => repeat (mkMatch j mk None)
                               (Spatial.count graph
                                  (mapper graph (lhs rule) mk)))
                  maps.
Proof.
  revert hits. induction maps as [|mk maps IH]; intros hits Hr;
    cbn [replicateFrom] in Hr.
  - now inversion Hr.
  - destruct (JS.arrayLimit <? _); [discriminate|].
    destruct (replicateFrom graph j rule maps) as [c hs].
    inversion Hr; subst. cbn [flat_map]. f_equal. now apply IH.
Qed.

Lemma replicateFrom_In (graph : G) (i : nat) (rule : Rule)
  (maps : list (list Vertex)) (c : completion) (hits : list Match)
  (h : Match) :
  replicateFrom graph i rule maps = (c, hits) -> In h hits ->
  exists mk, In mk maps /\ h = mkMatch i mk None /\
             (1 <= Spatial.count graph (mapper graph (lhs rule) mk))%nat.
Proof.
  revert c hits. induction maps as [|mk maps IH]; intros c hits Hr Hin;
    cbn [replicateFrom] in Hr.
  - inversion Hr; subst. contradiction.
  - destruct (JS.arrayLimit <? _); [inversion Hr; subst; contradiction|].
    destruct (replicateFrom graph i rule maps) as [c0 hs] eqn:Hrec.
    inversion Hr; subst. apply in_app_or in Hin. destruct Hin as [Hin|Hin].
    + destruct (Spatial.count graph (mapper graph (lhs rule) mk))
        as [|n] eqn:Hc; [contradiction|].
      apply repeat_spec in Hin. exists mk.
      split; [now left|]. split; [assumption | lia].
    + destruct (IH _ _ eq_refl Hin) as (mk' & Hmk & Hh & Hc).
      exists mk'. split; [now right|]. split; assumption.
Qed.

Lemma hitsFor_replicate (graph : G) (i j : nat) (rule : Rule)
  (a : list Vertex) (maps : list (list Vertex)) (hits : list Match) :
  replicate graph j rule maps = (Normal, hits) ->
  hitsFor i a hits =
  if (j =? i)%nat
  then (Spatial.count graph (mapper graph (lhs rule) a) * occurrences a maps)%nat
  else O.
Proof.
  unfold replicate. intros Hr. apply replicateFrom_normal in Hr. subst hits.
  rewrite hitsFor_flat_map. now rewrite occurrences_rev.
Qed.

Lemma matchRule_hits (graph : G) (i j : nat) (rule : Rule) (edge : Hyperedge)
  (a : list Vertex) (hits : list Match) :
  matchRule graph j rule edge = (Normal, hits) ->
  hitsFor i a hits =
  if (j =? i)%nat
  then (Spatial.count graph (mapper graph (lhs rule) a)
        * derivationsAt graph rule a edge)%nat
  else O.
Proof.
  unfold matchRule, derivationsAt. intros Hm.
  destruct (lhs rule) as [|p0 ps] eqn:Hl; [discriminate|]. simpl hd.
  destruct (length edge =? length p0)%nat; cbn [negb] in Hm.
  - destruct (concat (p0 :: ps)); [discriminate|].
    destruct (JS.arrayLimit <? _); [discriminate|].
    rewrite (hitsFor_replicate _ _ _ _ _ _ _ Hm). now rewrite Hl.
  - inversion Hm; subst. unfold hitsFor. simpl.
    destruct (j =? i)%nat; lia.
Qed.

(** The hits that the rules from index [j] on contribute for rule [i]. *)
Lemma forRules_hits (graph : G) (i : nat) (a : list Vertex)
  (edge : Hyperedge) (rs : list Rule) :
  forall (j : nat) (acc acc' : list Match),
    forRules graph j rs edge acc = (Normal, acc') ->
    hitsFor i a acc' =
    (hitsFor i a acc +
     match (if (j <=? i)%nat then nth_error rs (i - j) else None) with
     | Some rule => Spatial.count graph (mapper graph (lhs rule) a)
                    * derivationsAt graph rule a edge
     | None => O
     end)%nat.
Proof.
  induction rs as [|rule rs IH]; intros j acc acc' Hf; simpl in Hf.
  - inversion Hf; subst.
    destruct (j <=? i)%nat; [destruct (i - j)%nat|]; simpl; lia.
  - destruct (matchRule graph j rule edge) as [[|] hits] eqn:Hm;
      [|discriminate].
    rewrite (IH _ _ _ Hf), hitsFor_app, (matchRule_hits _ i _ _ _ a _ Hm).
    destruct (Nat.eqb_spec j i) as [->|Hne].
    + rewrite Nat.leb_refl, Nat.sub_diag.
      destruct (Nat.leb_spec (S i) i); [lia|].
      cbn [nth_error]. lia.
    + destruct (Nat.leb_spec j i) as [Hle|Hgt].
      * destruct (Nat.leb_spec (S j) i); [|lia].
        replace (i - j)%nat with (S (i - S j)) by lia.
        cbn [nth_error]. lia.
      * destruct (Nat.leb_spec (S j) i); [lia|]. lia.
Qed.

Lemma forEdges_hits (graph : G) (i : nat) (a : list Vertex) (rs : list Rule)
  (rule : Rule) :
  nth_error rs i = Some rule ->
  forall (es : list Hyperedge) (acc acc' : list Match),
    forEdges graph rs es acc = (Normal, acc') ->
    hitsFor i a acc' =
    (hitsFor i a acc +
     Spatial.count graph (mapper graph (lhs rule) a)
     * list_sum (List.map (derivationsAt graph rule a) es))%nat.
Proof.
  intros Hr. induction es as [|edge es IH]; intros acc acc' Hf; simpl in Hf.
  - inversion Hf; subst. simpl. lia.
  - destruct (forRules graph 0 rs edge acc) as [[|] acc1] eqn:Hfr;
      [|discriminate].
    rewrite (IH _ _ Hf), (forRules_hits _ i a _ _ _ _ _ Hfr).
    simpl. rewrite Nat.sub_0_r, Hr. simpl. lia.
Qed.

(** *** The search and the chains of found edges *)

Lemma assign_firstPos (p : Pattern) :
  forall (e : Hyperedge) (mp : list Vertex) (w : nat),
    (forall v, In v p -> (v < length mp)%nat) ->
    nth w (assign p e mp) 0 =
    match firstPos w p with
    | Some k => nth k e undefined
    | None => nth w mp 0
    end.
Proof.
  induction p as [|v p IH]; intros e mp w Hin; [reflexivity|].
  cbn [assign firstPos].
  assert (Hp : forall u, In u p -> (u < length mp)%nat)
    by (intros u Hu; apply Hin; now right).
  rewrite nth_set_at.
  2:{ rewrite assign_length by exact Hp. apply Hin. now left. }
  destruct (Nat.eqb_spec w v) as [->|Hne].
  - now destruct e.
  - pose proof (IH (tl e) mp w Hp) as Eih. unfold Vertex, Hyperedge in *.
    rewrite Eih. destruct (firstPos w p) as [k|]; [|reflexivity].
    cbn [option_map]. destruct e as [|x e]; [|reflexivity].
    now destruct k.
Qed.

Lemma nth_map_seq (f : nat -> Z) (n w : nat) :
  (w < n)%nat -> nth w (List.map f (seq 0 n)) 0 = f w.
Proof.
  intros Hw.
  assert (Hl : (w < length (List.map f (seq 0 n)))%nat)
    by (rewrite length_map, length_seq; exact Hw).
  rewrite (nth_indep _ 0 (f O) Hl).
  rewrite (map_nth f (seq 0 n) O w). now rewrite seq_nth.
Qed.

Lemma boundTo_length (p : Pattern) (e : Hyperedge) (mp : list Vertex) :
  length (boundTo p e mp) = length mp.
Proof. unfold boundTo. now rewrite length_map, length_seq. Qed.

(** The writes of the code, last position first, leave the bindings that
    [boundTo] describes. *)
Lemma assign_boundTo (p : Pattern) (e : Hyperedge) (mp : list Vertex) :
  (forall v, In v p -> (v < length mp)%nat) ->
  assign p e mp = boundTo p e mp.
Proof.
  intros Hin. apply (nth_ext _ _ 0 0).
  - now rewrite assign_length, boundTo_length.
  - intros w Hw. rewrite assign_length in Hw by exact Hin.
    rewrite assign_firstPos by exact Hin. unfold boundTo.
    now rewrite nth_map_seq.
Qed.

Lemma template_bound (graph : G) (p : Pattern) (mk : list Vertex) :
  (forall v, In v p -> (v < length mk)%nat) ->
  hd [] (mapper graph [p] mk) = List.map (fun v => nth v mk 0) p.
Proof.
  intros Hin. cbn [mapper List.map hd]. apply map_ext_in.
  intros v Hv. apply mapVertex_bound. now apply Hin.
Qed.

Lemma list_sum_map_rev {A} (f : A -> nat) (l : list A) :
  list_sum (List.map f (rev l)) = list_sum (List.map f l).
Proof.
  induction l as [|x l IH]; [reflexivity|].
  cbn [rev List.map]. rewrite map_app, list_sum_app, IH. simpl. lia.
Qed.

Lemma list_sum_flat_map {A B} (f : B -> nat) (g : A -> list B) (l : list A) :
  list_sum (List.map f (flat_map g l)) =
  list_sum (List.map (fun x => list_sum (List.map f (g x))) l).
Proof.
  induction l as [|x l IH]; [reflexivity|].
  cbn [flat_map List.map]. rewrite map_app, list_sum_app, IH. reflexivity.
Qed.

Lemma occurrences_sum (a : list Vertex) (maps : list (list Vertex)) :
  occurrences a maps =
  list_sum (List.map (fun mp => if edge_eqb a mp then 1%nat else O) maps).
Proof.
  unfold occurrences. induction maps as [|mp maps IH]; [reflexivity|].
  cbn [filter List.map]. destruct (edge_eqb a mp); simpl; now rewrite IH.
Qed.

(** The breadth-first search of the code ends in [a] as often as there are
    chains of found edges that do. *)
Lemma fold_extend_chains (graph : G) (a : list Vertex) (n : nat)
  (ps : list Pattern) :
  (forall p v, In p ps -> In v p -> (v < n)%nat) ->
  forall maps : list (list Vertex),
    Forall (fun mk => length mk = n) maps ->
    occurrences a (fold_left (extend graph) ps maps) =
    list_sum (List.map (chains graph a ps) maps).
Proof.
  induction ps as [|p ps IH]; intros Hvars maps Hlen.
  - cbn [fold_left chains]. apply occurrences_sum.
  - cbn [fold_left].
    assert (Hp : forall v, In v p -> (v < n)%nat)
      by (intros v Hv; apply (Hvars p v); [now left | assumption]).
    rewrite IH.
    2:{ intros q v Hq Hv. apply (Hvars q v); [now right | assumption]. }
    2:{ now apply extend_length. }
    unfold extend. rewrite list_sum_flat_map, list_sum_map_rev.
    f_equal. apply map_ext_in. intros mk Hmk.
    rewrite Forall_forall in Hlen. specialize (Hlen mk Hmk).
    rewrite map_map, list_sum_map_rev. cbn [chains].
    rewrite template_bound by (intros v Hv; rewrite Hlen; now apply Hp).
    f_equal. apply map_ext. intros e.
    rewrite assign_boundTo by (intros v Hv; rewrite Hlen; now apply Hp).
    reflexivity.
Qed.

Lemma derivationsAt_chains (graph : G) (rule : Rule) (a : list Vertex)
  (edge : Hyperedge) :
  derivationsAt graph rule a edge =
  if (length edge =? length (hd [] (lhs rule)))%nat
  then chains graph a (tl (lhs rule))
         (boundTo (hd [] (lhs rule)) edge
                  (repeat (-1) (JS.max_of (concat (lhs rule)) + 1)))
  else O.
Proof.
  unfold derivationsAt, candidates.
  destruct (length edge =? length (hd [] (lhs rule)))%nat; [|reflexivity].
  assert (Hvars : forall p v, In p (lhs rule) -> In v p ->
                              (v < JS.max_of (concat (lhs rule)) + 1)%nat).
  { intros p v Hp Hv.
    assert (v <= JS.max_of (concat (lhs rule)))%nat; [|lia].
    apply max_of_ge. apply in_concat. eauto. }
  assert (Hhd : forall v, In v (hd [] (lhs rule)) ->
                          (v < length (repeat (-1)%Z
                                 (JS.max_of (concat (lhs rule)) + 1)))%nat).
  { intros v Hv. rewrite repeat_length.
    destruct (lhs rule) as [|p0 ps]; [contradiction|].
    apply (Hvars p0 v); [now left | assumption]. }
  rewrite (fold_extend_chains graph a (JS.max_of (concat (lhs rule)) + 1)).
  - cbn [List.map list_sum fold_right]. rewrite assign_boundTo by exact Hhd.
    lia.
  - intros p v Hp Hv. apply (Hvars p v); [|assumption].
    destruct (lhs rule); [contradiction | now right].
  - constructor; [|constructor].
    rewrite assign_length by exact Hhd. apply repeat_length.
Qed.

(** C4 (amended). For rule [i] and assignment [a], one call to the Match
    Finder that returns normally emits [m] hits for each derivation of [a],
    [m] being the multiplicity of the left-hand side substituted under [a]
    and a derivation being a seed edge of the arity of the first pattern
    together with a chain of found edges, one per further pattern, that ends
    in [a]: the number of hits is [m] times the number of derivations. *)
Theorem findMatches_multiplicity (s s' : HRS G C) (i : nat) (rule : Rule)
  (a : list Vertex) :
  findMatches s = (Normal, s') ->
  nth_error (rules s) i = Some rule ->
  hitsFor i a (matches s') =
  (Spatial.count (spatial s) (mapper (spatial s) (lhs rule) a)
   * derivationCount (spatial s) rule a)%nat.
Proof.
  intros Hf Hr. unfold findMatches in Hf.
  destruct (rules s) as [|r0 rs] eqn:Hrules.
  - destruct i; discriminate.
  - simpl in Hf.
    destruct (forEdges (spatial s) (r0 :: rs) (Spatial.edges (spatial s)) [])
      as [c ms] eqn:He.
    inversion Hf; subst. simpl.
    rewrite (forEdges_hits _ i a _ rule Hr _ _ _ He).
    cbn [hitsFor filter length Nat.add]. unfold derivationCount.
    f_equal. f_equal. apply map_ext. intros e.
    apply derivationsAt_chains.
Qed.

End MultiplicityFacts.

(** C4 as stated fails: with the edges [(1,1)] and [(1,2)] and the
    left-hand side [(x,x)], the substituted left-hand side [(1,1)] exists
    once, yet two hits are emitted for [x = 1], one per seed edge. *)
Lemma findMatches_more_hits_than_copies :
  let rule := mkRule [[0; 0]]%nat [] in
  let s := Demo.system (ListGraph.mk [[1; 1]; [1; 2]] 2) [rule] [] 10 in
  exists s',
    findMatches s = (Normal, s') /\
    Spatial.count (spatial s) (mapper (spatial s) (lhs rule) [1]) = 1%nat /\
    hitsFor 0 [1] (matches s') = 2%nat.
Proof.
  intros rule s. eexists. split; [reflexivity|]. split; reflexivity.
Qed.

Lemma findMatches_multiplicity_witness :
  let rule := mkRule [[0; 0]]%nat [] in
  let s := Demo.system (ListGraph.mk [[1; 1]; [1; 2]] 2) [rule] [] 10 in
  findMatches s = (Normal, snd (findMatches s)) /\
  nth_error (rules s) 0 = Some rule /\
  hitsFor 0 [1] (matches (snd (findMatches s))) = (1 * 2)%nat.
Proof.
  intros rule s. split; [reflexivity|]. split; [reflexivity|].
  exact (findMatches_multiplicity s (snd (findMatches s)) 0 rule [1]
           eq_refl eq_refl).
Defined.

(** ** Scheduler: event ordering *)

Section OrderingFacts.

Context {G C : Type} `{Spatial.Store G} `{Causal.Store C}.

Lemma lexCompare_refl (a : list Z) : lexCompare a a = Eq.
Proof.
  induction a as [|x a IH]; simpl; [reflexivity|]. now rewrite Z.compare_refl.
Qed.

Lemma lexCompare_antisym (a b : list Z) :
  lexCompare a b = CompOpp (lexCompare b a).
Proof.
  revert b. induction a as [|x a IH]; intros [|y b]; simpl; try reflexivity.
  rewrite (Z.compare_antisym y x).
  destruct (y ?= x); simpl; auto.
Qed.

Lemma lexCompare_trans (a b c : list Z) :
  lexCompare a b <> Lt -> lexCompare b c <> Lt -> lexCompare a c <> Lt.
Proof.
  revert b c. induction a as [|x a IH]; intros [|y b] [|z c]; simpl;
    try congruence.
  destruct (Z.compare_spec x y), (Z.compare_spec y z), (Z.compare_spec x z);
    try congruence; try lia; subst; eauto.
Qed.

(** The comparator of the ascending mode puts [a] first exactly when the
    key of [a] is not below the key of [b]. *)
Lemma ascending_lex (a b : Match) :
  ascending a b <= 0 <-> lexCompare (keyOf a) (keyOf b) <> Lt.
Proof.
  unfold ascending. generalize (keyOf a) (keyOf b). clear a b.
  intros ka. induction ka as [|x ka IH]; intros [|y kb]; simpl length;
    cbn [firstDiff lexCompare].
  - split; [congruence | lia].
  - split; [lia | congruence].
  - split; [congruence | lia].
  - destruct (Z.eqb_spec x y) as [->|Hne].
    + rewrite Z.compare_refl, <- IH.
      destruct (firstDiff ka kb) as [[u v]|]; [tauto|]. lia.
    + destruct (Z.compare_spec x y); split; intros; try congruence; lia.
Qed.

Lemma ascending_total (x y : Match) : 0 < ascending x y -> ascending y x <= 0.
Proof.
  intros Hgt. apply ascending_lex.
  rewrite lexCompare_antisym.
  destruct (lexCompare (keyOf x) (keyOf y)) eqn:E; simpl; try congruence.
  assert (ascending x y <= 0) by (apply ascending_lex; congruence). lia.
Qed.

Lemma ascending_trans (x y z : Match) :
  ascending x y <= 0 -> ascending y z <= 0 -> ascending x z <= 0.
Proof.
  rewrite !ascending_lex. apply lexCompare_trans.
Qed.

Lemma ascending_same_key (k : list Z) (x y : Match) :
  edge_eqb k (keyOf x) = true -> edge_eqb k (keyOf y) = true ->
  ascending x y <= 0.
Proof.
  intros Hx Hy. apply edge_eqb_eq in Hx, Hy. apply ascending_lex.
  rewrite <- Hx, <- Hy, lexCompare_refl. congruence.
Qed.

Lemma orderOf_spec (c : C) (h : Match) :
  Permutation (orderOf c h) (List.map (Causal.rank c) (m h)) /\
  StronglySorted Z.ge (orderOf c h).
Proof.
  unfold orderOf. split; [apply sort_perm|].
  eapply StronglySorted_weaken; [|apply (sort_sorted (fun a b => b - a))].
  - intros a b Hab. simpl in Hab. lia.
  - intros x y. simpl. lia.
  - intros x y z. simpl. lia.
Qed.

Lemma attachOrder_spec (c : C) (l : list Match) :
  Forall2 (fun h k =>
             r k = r h /\ m k = m h /\
             exists key, order k = Some key /\
               Permutation key (List.map (Causal.rank c) (m h)) /\
               StronglySorted Z.ge key)
          l (List.map (attachOrder c) l).
Proof.
  induction l as [|h l IH]; simpl; constructor; [|exact IH].
  split; [reflexivity|]. split; [reflexivity|].
  exists (orderOf c h). split; [reflexivity|]. apply orderOf_spec.
Qed.

(** C5 (amended). In the ascending mode every hit receives as its key the
    first ranks of the vertices of its assignment in decreasing order, and
    the keyed hits are stably sorted so that the lexicographically largest
    key comes first, a key coming before its proper prefixes: the result is a
    permutation of the keyed hits, no hit is followed by one with a larger
    key, and hits with the same key keep their order. *)
Theorem ascending_order (s : HRS G C) :
  eventordering s = "ascending"%string ->
  Forall2 (fun h k =>
             r k = r h /\ m k = m h /\
             exists key, order k = Some key /\
               Permutation key (List.map (Causal.rank (causal s)) (m h)) /\
               StronglySorted Z.ge key)
          (matches s) (List.map (attachOrder (causal s)) (matches s)) /\
  Permutation (matches (orderEvents s))
              (List.map (attachOrder (causal s)) (matches s)) /\
  StronglySorted (fun a b => lexCompare (keyOf a) (keyOf b) <> Lt)
                 (matches (orderEvents s)) /\
  (forall k,
     filter (fun h => edge_eqb k (keyOf h)) (matches (orderEvents s)) =
     filter (fun h => edge_eqb k (keyOf h))
            (List.map (attachOrder (causal s)) (matches s))).
Proof.
  intros Hmode.
  assert (Hout : matches (orderEvents s) =
                 JS.sort ascending
                   (List.map (attachOrder (causal s)) (matches s))).
  { unfold orderEvents. rewrite Hmode. reflexivity. }
  rewrite Hout. split; [|split; [|split]].
  - apply attachOrder_spec.
  - apply sort_perm.
  - eapply StronglySorted_weaken; [|apply (sort_sorted ascending)].
    + intros a b. apply ascending_lex.
    + exact ascending_total.
    + exact ascending_trans.
  - intros k. apply sort_stable. intros x y. apply ascending_same_key.
Qed.

End OrderingFacts.

(** C5 as stated fails: the keys [0], [1] and [0, 0] are put in the order
    [1], [0, 0], [0].  The smallest key comes last, and the key [0, 0] comes
    before its shorter prefix [0]. *)
Lemma ascending_largest_first :
  eventordering Demo_ordering = "ascending"%string /\
  List.map keyOf (List.map (attachOrder (causal Demo_ordering))
                           (matches Demo_ordering)) = [[0]; [1]; [0; 0]] /\
  List.map keyOf (matches (orderEvents Demo_ordering)) = [[1]; [0; 0]; [0]] /\
  lexCompare [1] [0] = Gt /\ lexCompare [0; 0] [0] = Gt.
Proof. repeat split; reflexivity. Qed.

Lemma ascending_order_witness :
  eventordering Demo_ordering = "ascending"%string /\
  StronglySorted (fun a b => lexCompare (keyOf a) (keyOf b) <> Lt)
                 (matches (orderEvents Demo_ordering)).
Proof.
  split; [reflexivity|].
  exact (proj1 (proj2 (proj2 (ascending_order Demo_ordering eq_refl)))).
Defined.

(** ** Event budget *)

Section BudgetFacts.

Context {G C : Type} `{Spatial.Store G} `{Causal.Store C}.

Variable Math_random : nat -> nat.
Variable slice_budget : Z -> nat.

Lemma sameControl_refl (s : HRS G C) : sameControl s s.
Proof. unfold sameControl. tauto. Qed.

Lemma sameControl_trans (s1 s2 s3 : HRS G C) :
  sameControl s1 s2 -> sameControl s2 s3 -> sameControl s1 s3.
Proof.
  unfold sameControl. intros H1 H2.
  decompose [and] H1. decompose [and] H2. repeat split; congruence.
Qed.

Lemma processHit_cases (nol : list Rule) (s s' : HRS G C) (h : Match)
  (stop : bool) :
  processHit nol s h = Some (s', stop) ->
  (s' = s /\ stop = false) \/
  (sameControl s s' /\ eventcnt s' = eventcnt s + 1 /\
   stop = (eventcnt s + 1 >=? maxevents s)).
Proof.
  unfold processHit. intros Hp.
  destruct (nth_error (rules s) (r h)) as [rule|]; [|discriminate].
  destruct (Spatial.count (spatial s) (mapper (spatial s) (lhs rule) (m h))
            =? 0)%nat; [inversion Hp; subst; left; auto|].
  destruct (nth_error nol (r h)) as [nl|]; [|discriminate].
  inversion Hp; subst. right. simpl. repeat split.
Qed.

Lemma processLoop_bound (nol : list Rule) (hits : list Match) :
  forall (s s' : HRS G C) (c : completion),
    processLoop nol hits s = (c, s') ->
    sameControl s s' /\ eventcnt s <= eventcnt s' /\
    (eventcnt s < maxevents s ->
     eventcnt s' <= maxevents s /\
     (c = Thrown -> eventcnt s' < maxevents s)).
Proof.
  induction hits as [|h hits IH]; intros s s' c Hl; simpl in Hl.
  - inversion Hl; subst. split; [apply sameControl_refl|].
    split; [lia|]. intros; split; [lia | discriminate].
  - destruct (processHit nol s h) as [[s1 stop]|] eqn:Hp.
    + destruct (processHit_cases _ _ _ _ _ Hp)
        as [[-> ->] | (Hctl & Hcnt & ->)].
      * now apply IH.
      * assert (Hmax : maxevents s1 = maxevents s) by apply Hctl.
        destruct (Z.geb_spec (eventcnt s + 1) (maxevents s)) as [Hge|Hlt].
        -- inversion Hl; subst. split; [assumption|]. split; [lia|].
           intros; split; [lia | discriminate].
        -- destruct (IH _ _ _ Hl) as (Hctl' & Hmono & Hb).
           split; [eapply sameControl_trans; eassumption|].
           split; [lia|]. intros Hlt0. rewrite Hmax in Hb. apply Hb. lia.
    + inversion Hl; subst. split; [apply sameControl_refl|].
      split; [lia|]. intros; split; [lia|]. intros; lia.
Qed.

(** A hit list whose first hit is valid makes the counter advance; if the
    budget is then reached the loop is left at once. *)
Lemma processLoop_head (s : HRS G C) (h : Match) (rest : list Match) :
  validHit (spatial s) (rules s) h ->
  (eventcnt s + 1 >= maxevents s ->
   exists s', processLoop (List.map factor (rules s)) (h :: rest) s
              = (Normal, s') /\
              eventcnt s' = eventcnt s + 1) /\
  (forall c s', processLoop (List.map factor (rules s)) (h :: rest) s = (c, s')
                -> eventcnt s + 1 <= eventcnt s').
Proof.
  intros (rule & Hr & Hc). simpl.
  rewrite (processHit_present s h rule Hr Hc). cbv zeta. split.
  - intros Hge. destruct (Z.geb_spec (eventcnt s + 1) (maxevents s)); [|lia].
    eexists. split; reflexivity.
  - intros c s' Hl.
    destruct (eventcnt s + 1 >=? maxevents s).
    + inversion Hl; subst. simpl. lia.
    + apply processLoop_bound in Hl. simpl in Hl. lia.
Qed.

(** Every hit the Match Finder emits is valid in the graph it searched. *)
Lemma replicate_valid (graph : G) (all : list Rule) (i : nat) (rule : Rule)
  (maps : list (list Vertex)) (c : completion) (hits : list Match) :
  nth_error all i = Some rule ->
  replicate graph i rule maps = (c, hits) ->
  Forall (validHit graph all) hits.
Proof.
  intros Hr Hrep. apply Forall_forall. intros h Hin.
  destruct (replicateFrom_In _ _ _ _ _ _ _ Hrep Hin) as (mk & _ & -> & Hc).
  exists rule. simpl. split; assumption.
Qed.

Lemma matchRule_valid (graph : G) (all : list Rule) (i : nat) (rule : Rule)
  (edge : Hyperedge) (c : completion) (hits : list Match) :
  nth_error all i = Some rule ->
  matchRule graph i rule edge = (c, hits) ->
  Forall (validHit graph all) hits.
Proof.
  intros Hr Hm. unfold matchRule in Hm.
  destruct (lhs rule) as [|p0 ps]; [inversion Hm; subst; constructor|].
  destruct (negb (length edge =? length p0)%nat).
  - inversion Hm; subst. constructor.
  - destruct (concat (p0 :: ps)); [inversion Hm; subst; constructor|].
    destruct (JS.arrayLimit <? _); [inversion Hm; subst; constructor|].
    exact (replicate_valid graph all i rule _ c hits Hr Hm).
Qed.

Lemma forRules_valid (graph : G) (all : list Rule) (edge : Hyperedge)
  (rs : list Rule) :
  forall (j : nat) (acc acc' : list Match) (c : completion),
    (forall k, nth_error rs k = nth_error all (j + k)) ->
    Forall (validHit graph all) acc ->
    forRules graph j rs edge acc = (c, acc') ->
    Forall (validHit graph all) acc'.
Proof.
  induction rs as [|rule rs IH]; intros j acc acc' c Hall Hacc Hf;
    simpl in Hf.
  - inversion Hf; subst. assumption.
  - destruct (matchRule graph j rule edge) as [c0 hits] eqn:Hm.
    assert (Hhits : Forall (validHit graph all) (acc ++ hits)).
    { apply Forall_app. split; [assumption|].
      apply (matchRule_valid graph all j rule edge c0); [|assumption].
      rewrite <- (Nat.add_0_r j). symmetry. apply (Hall O). }
    destruct c0.
    + apply (IH (S j) (acc ++ hits) acc' c); [|assumption|assumption].
      intros k. specialize (Hall (S k)). simpl in Hall.
      rewrite Hall. f_equal. lia.
    + inversion Hf; subst. assumption.
Qed.

Lemma forEdges_valid (graph : G) (all : list Rule) (es : list Hyperedge) :
  forall (acc acc' : list Match) (c : completion),
    Forall (validHit graph all) acc ->
    forEdges graph all es acc = (c, acc') ->
    Forall (validHit graph all) acc'.
Proof.
  induction es as [|edge es IH]; intros acc acc' c Hacc Hf; simpl in Hf.
  - inversion Hf; subst. assumption.
  - destruct (forRules graph 0 all edge acc) as [[|] acc1] eqn:Hfr.
    + apply (IH acc1 acc' c); [|assumption].
      apply (forRules_valid graph all edge all 0 acc acc1 Normal);
        auto.
    + inversion Hf; subst.
      apply (forRules_valid graph all edge all 0 acc acc' Thrown); auto.
Qed.

Lemma findMatches_valid (s s' : HRS G C) (c : completion) :
  findMatches s = (c, s') ->
  Forall (validHit (spatial s) (rules s)) (matches s').
Proof.
  unfold findMatches. intros Hf.
  destruct (length (rules s) =? 0)%nat.
  - inversion Hf; subst. constructor.
  - destruct (forEdges (spatial s) (rules s) (Spatial.edges (spatial s)) [])
      as [c0 ms] eqn:He.
    inversion Hf; subst. simpl.
    eapply forEdges_valid; [|exact He]. constructor.
Qed.

(** The shuffle and the two orderings rearrange the hits and attach keys;
    they keep the hits valid and a non-empty list non-empty. *)
Lemma swap_Forall {A} (P : A -> Prop) (i j : nat) (a : list A) :
  Forall P a -> Forall P (JS.swap i j a).
Proof.
  intros Ha. unfold JS.swap.
  destruct (nth_error a i) as [x|] eqn:Hx; [|assumption].
  destruct (nth_error a j) as [y|] eqn:Hy; [|assumption].
  assert (Hfs : forall n (l : list A), Forall P l ->
                  Forall P (firstn n l) /\ Forall P (skipn n l)).
  { intros n l Hl. apply Forall_app. now rewrite firstn_skipn. }
  rewrite Forall_forall in Ha.
  assert (Px : P x) by (eapply Ha, nth_error_In; eassumption).
  assert (Py : P y) by (eapply Ha, nth_error_In; eassumption).
  rewrite <- Forall_forall in Ha.
  assert (Ha1 : Forall P (firstn i a ++ y :: skipn (S i) a)).
  { apply Forall_app. split; [apply Hfs; assumption|].
    constructor; [assumption | apply Hfs; assumption]. }
  apply Forall_app. split; [apply Hfs; assumption|].
  constructor; [assumption | apply Hfs; assumption].
Qed.

Lemma swap_nonempty {A} (i j : nat) (a : list A) :
  a <> [] -> JS.swap i j a <> [].
Proof.
  intros Ha. unfold JS.swap.
  destruct (nth_error a i); [|assumption].
  destruct (nth_error a j); [|assumption].
  intros E. apply app_eq_nil in E. destruct E as [_ E]. discriminate.
Qed.

Lemma shuffleFrom_keeps (P : Match -> Prop) (i : nat) :
  forall (k : nat) (a : list Match),
    (Forall P a -> Forall P (shuffleFrom Math_random i k a)) /\
    (a <> [] -> shuffleFrom Math_random i k a <> []).
Proof.
  induction i as [|i IH]; intros k a; simpl; [tauto|].
  split; intros Ha; apply IH.
  - now apply swap_Forall.
  - now apply swap_nonempty.
Qed.



Lemma validHit_attachOrder (g : G) (rs : list Rule) (c : C) (h : Match) :
  validHit g rs h -> validHit g rs (attachOrder c h).
Proof. intros (rule & Hr & Hc). exists rule. simpl. auto. Qed.

Lemma sort_keeps {A} (cmp : A -> A -> Z) (P : A -> Prop) (l : list A) :
  (Forall P l -> Forall P (JS.sort cmp l)) /\
  (l <> [] -> JS.sort cmp l <> []).
Proof.
  split.
  - intros Hl. eapply Permutation_Forall; [symmetry; apply sort_perm|].
    assumption.
  - intros Hl E. apply Hl. apply length_zero_iff_nil.
    rewrite <- (sort_length cmp), E. reflexivity.
Qed.

Lemma reordered_trans (s1 s2 s3 : HRS G C) :
  reordered s1 s2 -> reordered s2 s3 -> reordered s1 s3.
Proof.
  unfold reordered. intros (Hg & Hr & Hc & Hm & Hv & Hn).
  intros (Hg' & Hr' & Hc' & Hm' & Hv' & Hn').
  rewrite Hg, Hr in Hv'.
  repeat split; try congruence; auto.
Qed.

Lemma shuffle_reordered (s : HRS G C) : reordered s (shuffle Math_random s).
Proof.
  unfold reordered. simpl. repeat split; try reflexivity.
  - intros Hv. now apply shuffleFrom_keeps.
  - intros Hn. now apply (shuffleFrom_keeps (fun _ => True)).
Qed.

Lemma orderEvents_reordered (s : HRS G C) : reordered s (orderEvents s).
Proof.
  assert (Hk : Forall (validHit (spatial s) (rules s)) (matches s) ->
               Forall (validHit (spatial s) (rules s))
                      (List.map (attachOrder (causal s)) (matches s))).
  { intros Hv. apply Forall_map. eapply Forall_impl; [|exact Hv].
    intros h. apply validHit_attachOrder. }
  assert (Hn : matches s <> [] ->
               List.map (attachOrder (causal s)) (matches s) <> []).
  { destruct (matches s); [tauto | discriminate]. }
  unfold reordered, orderEvents.
  destruct (eventordering s =? "random")%string;
    [repeat split; auto|].
  destruct (eventordering s =? "ascending")%string;
    [|destruct (eventordering s =? "descending")%string];
    simpl; repeat split; auto; intros Hm.
  - apply sort_keeps; auto.
  - apply (sort_keeps _ (fun _ => True)); auto.
  - apply sort_keeps; auto.
  - apply (sort_keeps _ (fun _ => True)); auto.
Qed.

Lemma orderRules_reordered (s : HRS G C) : reordered s (orderRules s).
Proof.
  unfold reordered, orderRules.
  destruct (1 <? length (rules s))%nat; [|repeat split; auto].
  destruct (ruleordering s =? "index")%string;
    [|destruct (ruleordering s =? "indexrev")%string];
    simpl; repeat split; auto; intros Hm.
  - apply sort_keeps; auto.
  - apply (sort_keeps _ (fun _ => True)); auto.
  - apply sort_keeps; auto.
  - apply (sort_keeps _ (fun _ => True)); auto.
Qed.

(** The list handed to the Match Processor in a round. *)
Lemma ordered_hits (s : HRS G C) :
  reordered s (orderRules (orderEvents (shuffle Math_random s))).
Proof.
  eapply reordered_trans; [|apply orderRules_reordered].
  eapply reordered_trans; [|apply orderEvents_reordered].
  apply shuffle_reordered.
Qed.

Lemma findMatches_eq (s s' : HRS G C) (c : completion) :
  findMatches s = (c, s') -> s' = set_matches s (matches s').
Proof.
  intros Hf. pose proof (findMatches_only_matches s) as Ho.
  rewrite Hf in Ho. exact Ho.
Qed.

(** A throw of event ordering leaves everything but the hit list and the
    count of random draws as the search left it. *)
Lemma keysThrow_frame (s s' : HRS G C) :
  keysThrow s = Some s' -> s' = set_matches s (matches s').
Proof.
  unfold keysThrow. intros Hk.
  destruct (eventordering s =? "random")%string; [discriminate|].
  destruct (attachWhile (causal s) (matches s)) as [keyed thrown].
  destruct thrown; [|discriminate]. now inversion Hk.
Qed.

Lemma attachWhile_nonempty (c : C) (hits keyed : list Match) :
  attachWhile c hits = (keyed, true) -> keyed <> [].
Proof.
  destruct hits as [|h hits]; cbn [attachWhile]; [discriminate|].
  destruct (forallb (Causal.labelled c) (m h)).
  - destruct (attachWhile c hits) as [l t]. intros E. inversion E. discriminate.
  - intros E. inversion E. discriminate.
Qed.

(** One round: the budget stays, the counter never goes down and never
    passes a budget it was below; a round that continues has counted at
    least one event and is still below the budget; a round that breaks found
    no hit or reached the budget. *)
Lemma round_spec (s s' : HRS G C) (e : roundEnd) :
  round Math_random s = (s', e) ->
  maxevents s' = maxevents s /\ eventcnt s <= eventcnt s' /\
  (eventcnt s < maxevents s -> eventcnt s' <= maxevents s) /\
  (e = Continue -> eventcnt s < eventcnt s' < maxevents s) /\
  (e = Break -> matches s' = [] \/ eventcnt s' >= maxevents s) /\
  (e = Raised -> eventcnt s < maxevents s -> eventcnt s' < maxevents s).
Proof.
  unfold round. intros Hr.
  destruct (findMatches (set_step s (step s + 1))) as [c s2] eqn:Hf.
  pose proof (findMatches_eq _ _ _ Hf) as Hs2.
  pose proof (findMatches_valid _ _ _ Hf) as Hv. simpl in Hv.
  assert (Hc2 : eventcnt s2 = eventcnt s) by (rewrite Hs2; reflexivity).
  assert (Hm2 : maxevents s2 = maxevents s) by (rewrite Hs2; reflexivity).
  assert (Hg2 : spatial s2 = spatial s) by (rewrite Hs2; reflexivity).
  assert (Hr2 : rules s2 = rules s) by (rewrite Hs2; reflexivity).
  destruct c.
  2:{ inversion Hr; subst s' e. rewrite Hc2, Hm2.
      repeat split; try lia; try discriminate; auto. }
  destruct (length (matches s2) =? 0)%nat eqn:Hlen.
  { inversion Hr; subst s' e. rewrite Hc2, Hm2.
    apply Nat.eqb_eq, length_zero_iff_nil in Hlen.
    repeat split; try lia; try discriminate; auto. }
  destruct (keysThrow (shuffle Math_random s2)) as [s3|] eqn:Hk.
  { apply keysThrow_frame in Hk. inversion Hr; subst s' e.
    assert (Hc3 : eventcnt s3 = eventcnt s) by (rewrite Hk; exact Hc2).
    assert (Hm3 : maxevents s3 = maxevents s) by (rewrite Hk; exact Hm2).
    rewrite Hc3, Hm3. repeat split; try lia; try discriminate; auto. }
  destruct (ordered_hits s2) as (Hg5 & Hr5 & Hc5 & Hm5 & Hv5 & Hn5).
  set (s5 := orderRules (orderEvents (shuffle Math_random s2))) in *.
  rewrite Hg2, Hr2 in Hv5. specialize (Hv5 Hv).
  assert (Hne : matches s2 <> []).
  { intros E. rewrite E in Hlen. discriminate. }
  specialize (Hn5 Hne).
  destruct (processMatches s5) as [c3 s3] eqn:Hp.
  unfold processMatches in Hp.
  pose proof (processLoop_bound _ _ _ _ _ Hp) as (Hctl & Hmono & Hb).
  assert (Hm3 : maxevents s3 = maxevents s5) by apply Hctl.
  assert (Hms3 : matches s3 = matches s5) by apply Hctl.
  assert (Hadv : eventcnt s5 + 1 <= eventcnt s3).
  { destruct (matches s5) as [|h rest] eqn:Hms; [congruence|].
    inversion Hv5 as [|? ? Hh _]; subst.
    rewrite <- Hg2, <- Hg5, <- Hr2, <- Hr5 in Hh.
    exact (proj2 (processLoop_head s5 h rest Hh) _ _ Hp). }
  assert (Hb' : eventcnt s < maxevents s ->
                eventcnt s3 <= maxevents s /\
                (c3 = Thrown -> eventcnt s3 < maxevents s)).
  { intros Hlt. rewrite <- Hm2, <- Hm5. apply Hb. lia. }
  destruct c3.
  - destruct (Z.geb_spec (eventcnt s3) (maxevents s3)) as [Hge|Hlt];
      inversion Hr; subst s' e;
      repeat split; try lia; try discriminate; try congruence;
      try (intros; apply Hb'; assumption).
  - inversion Hr; subst s' e.
    repeat split; try lia; try discriminate; try congruence.
    intros _ Hlt. now apply Hb'.
Qed.

Lemma slice_spec (budget : nat) :
  forall (s s' : HRS G C) (c : completion),
    slice Math_random budget s = (s', c) ->
    maxevents s' = maxevents s /\ eventcnt s <= eventcnt s' /\
    (eventcnt s < maxevents s -> eventcnt s' <= maxevents s) /\
    (c = Normal ->
     (matches s' = [] \/ eventcnt s' >= maxevents s) \/
     eventcnt s < eventcnt s' < maxevents s).
Proof.
  assert (Hbreak : forall s s1 : HRS G C,
            round Math_random s = (s1, Break) ->
            maxevents s1 = maxevents s /\ eventcnt s <= eventcnt s1 /\
            (eventcnt s < maxevents s -> eventcnt s1 <= maxevents s) /\
            (Normal = Normal ->
             (matches s1 = [] \/ eventcnt s1 >= maxevents s) \/
             eventcnt s < eventcnt s1 < maxevents s)).
  { intros s s1 Hr.
    destruct (round_spec _ _ _ Hr) as (Hm & Hmono & Hb & _ & Hbr & _).
    repeat split; auto. }
  assert (Hraised : forall s s1 : HRS G C,
            round Math_random s = (s1, Raised) ->
            maxevents s1 = maxevents s /\ eventcnt s <= eventcnt s1 /\
            (eventcnt s < maxevents s -> eventcnt s1 <= maxevents s) /\
            (Thrown = Normal ->
             (matches s1 = [] \/ eventcnt s1 >= maxevents s) \/
             eventcnt s < eventcnt s1 < maxevents s)).
  { intros s s1 Hr.
    destruct (round_spec _ _ _ Hr) as (Hm & Hmono & Hb & _).
    repeat split; auto. discriminate. }
  induction budget as [|budget IH]; intros s s' c Hs; simpl in Hs;
    destruct (round Math_random s) as [s1 e] eqn:Hr; destruct e;
    try (inversion Hs; subst s' c; auto; fail).
  - inversion Hs; subst s' c.
    destruct (round_spec _ _ _ Hr) as (Hm & Hmono & Hb & Hc & _).
    repeat split; auto.
  - destruct (round_spec _ _ _ Hr) as (Hm & Hmono & Hb & Hc & _).
    specialize (Hc eq_refl).
    destruct (IH _ _ _ Hs) as (Hm' & Hmono' & Hb' & Hn').
    split; [congruence|]. split; [lia|]. split.
    + intros Hlt. rewrite Hm in Hb'. apply Hb'. lia.
    + intros ->. destruct (Hn' eq_refl) as [[He|Hge]|Hlt]; [tauto| |].
      * left. right. lia.
      * right. lia.
Qed.

Lemma rewrite_spec (s s' : HRS G C) (e : sliceEnd) :
  rewrite Math_random slice_budget s = (s', e) ->
  maxevents s' = maxevents s /\ eventcnt s <= eventcnt s' /\
  (eventcnt s < maxevents s -> eventcnt s' <= maxevents s) /\
  (e = Rescheduled -> eventcnt s < eventcnt s' < maxevents s) /\
  (e = Done -> finishedfn s' = true ->
   exists pre, notices s' = pre ++ [Finished]).
Proof.
  unfold rewrite. intros Hw.
  destruct (slice Math_random (slice_budget (step s)) s) as [s1 c] eqn:Hs.
  pose proof (slice_spec _ _ _ _ Hs) as (Hm & Hmono & Hb & Hn).
  destruct c.
  2:{ inversion Hw; subst s' e. repeat split; auto; discriminate. }
  specialize (Hn eq_refl).
  set (s2 := if progressfn s1 then notify s1 (Progress (eventcnt s1)) else s1)
    in *.
  assert (Hc2 : eventcnt s2 = eventcnt s1)
    by (unfold s2; destruct (progressfn s1); reflexivity).
  assert (Hm2 : maxevents s2 = maxevents s1)
    by (unfold s2; destruct (progressfn s1); reflexivity).
  assert (Hms2 : matches s2 = matches s1)
    by (unfold s2; destruct (progressfn s1); reflexivity).
  destruct ((length (matches s2) =? 0)%nat || (eventcnt s2 >=? maxevents s2))
    eqn:Hfin; inversion Hw; subst s' e.
  - destruct (finishedfn s2) eqn:Hff; simpl;
      repeat split; try lia; try discriminate; try congruence.
    intros _ _. eexists. reflexivity.
  - apply orb_false_iff in Hfin. destruct Hfin as [Hl Hg].
    assert (Hlt2 : eventcnt s2 < maxevents s2)
      by (destruct (Z.geb_spec (eventcnt s2) (maxevents s2));
          [discriminate | lia]).
    assert (Hadv : eventcnt s < eventcnt s1).
    { destruct Hn as [[He|Hge]|Hlt]; [| |lia].
      - rewrite Hms2, He in Hl. discriminate.
      - lia. }
    simpl. repeat split; try lia; try discriminate.
Qed.



(** The shuffle and the orderings leave the causal graph and the step
    alone. *)
Lemma ordered_fields (s : HRS G C) :
  causal (orderRules (orderEvents (shuffle Math_random s))) = causal s /\
  step (orderRules (orderEvents (shuffle Math_random s))) = step s.
Proof.
  unfold orderRules, orderEvents.
  repeat match goal with
         | |- context [if ?b then _ else _] => destruct b
         end; split; reflexivity.
Qed.

(** A round that starts one event below the budget (or at or above it),
    finds a hit and orders the hits without a throw applies exactly one
    event, that of the first hit of the ordered list, and breaks. *)
Lemma round_budget_reached (s s1 : HRS G C) :
  eventcnt s + 1 >= maxevents s ->
  findMatches (set_step s (step s + 1)) = (Normal, s1) ->
  matches s1 <> [] ->
  keysThrow (shuffle Math_random s1) = None ->
  exists s' h rule,
    round Math_random s = (s', Break) /\
    eventcnt s' = eventcnt s + 1 /\ maxevents s' = maxevents s /\
    hd_error (matches (orderRules (orderEvents (shuffle Math_random s1))))
      = Some h /\
    nth_error (rules s) (r h) = Some rule /\
    (1 <= Spatial.count (spatial s)
            (mapper (spatial s) (lhs rule) (m h)))%nat /\
    spatial s' =
      Spatial.rewrite (spatial s)
        (mapper (spatial s) (lhs (factor rule)) (m h))
        (mapper (spatial s) (rhs (factor rule)) (m h)) /\
    causal s' =
      Causal.rewrite (causal s) (m h)
        (modifiedOf (mapper (spatial s) (rhs (factor rule)) (m h)))
        (step s + 1).
Proof.
  intros Hge Hf Hne Hk. unfold round. rewrite Hf.
  pose proof (findMatches_eq _ _ _ Hf) as Hs1.
  pose proof (findMatches_valid _ _ _ Hf) as Hv. simpl in Hv.
  assert (Hc1 : eventcnt s1 = eventcnt s) by (rewrite Hs1; reflexivity).
  assert (Hm1 : maxevents s1 = maxevents s) by (rewrite Hs1; reflexivity).
  assert (Hg1 : spatial s1 = spatial s) by (rewrite Hs1; reflexivity).
  assert (Hr1 : rules s1 = rules s) by (rewrite Hs1; reflexivity).
  assert (Hca1 : causal s1 = causal s) by (rewrite Hs1; reflexivity).
  assert (Hst1 : step s1 = step s + 1) by (rewrite Hs1; reflexivity).
  destruct (length (matches s1) =? 0)%nat eqn:Hlen.
  { apply Nat.eqb_eq, length_zero_iff_nil in Hlen. contradiction. }
  rewrite Hk.
  destruct (ordered_hits s1) as (Hg5 & Hr5 & Hc5 & Hm5 & Hv5 & Hn5).
  destruct (ordered_fields s1) as (Hca5 & Hst5).
  set (s5 := orderRules (orderEvents (shuffle Math_random s1))) in *.
  rewrite Hg1, Hr1 in Hv5. specialize (Hv5 Hv). specialize (Hn5 Hne).
  unfold processMatches.
  destruct (matches s5) as [|h rest] eqn:Hms; [congruence|].
  inversion Hv5 as [|? ? Hh _]; subst.
  destruct Hh as (rule & Hrule & Hcount).
  assert (Hrule5 : nth_error (rules s5) (r h) = Some rule) by congruence.
  assert (Hcount5 : (1 <= Spatial.count (spatial s5)
                             (mapper (spatial s5) (lhs rule) (m h)))%nat)
    by (rewrite Hg5, Hg1; exact Hcount).
  cbn [processLoop].
  rewrite (processHit_present s5 h rule Hrule5 Hcount5). cbv zeta.
  destruct (Z.geb_spec (eventcnt s5 + 1) (maxevents s5)) as [_|Hlt]; [|lia].
  cbn [eventcnt maxevents set_event].
  destruct (Z.geb_spec (eventcnt s5 + 1) (maxevents s5)) as [_|Hlt]; [|lia].
  eexists. exists h, rule. split; [reflexivity|].
  cbn [eventcnt maxevents spatial causal set_event hd_error].
  rewrite Hg5, Hg1, Hca5, Hca1, Hst5, Hst1.
  repeat split; try lia; assumption.
Qed.



(** *** The same run under a larger budget *)











End BudgetFacts.





(** * Further properties of the module *)

(** ** Match Finder: where a hit comes from *)

Section FinderMore.

Context {G C : Type} `{Spatial.Store G} `{Causal.Store C}.

Lemma matchRule_In (graph : G) (i : nat) (rule : Rule) (edge : Hyperedge)
  (c : completion) (hits : list Match) (h : Match) :
  matchRule graph i rule edge = (c, hits) -> In h hits ->
  length edge = length (hd [] (lhs rule)) /\
  exists mk, In mk (candidates graph rule edge) /\ h = mkMatch i mk None /\
             (1 <= Spatial.count graph (mapper graph (lhs rule) mk))%nat.
Proof.
  unfold matchRule. intros Hm Hin.
  destruct (lhs rule) as [|p0 ps] eqn:Hl;
    [inversion Hm; subst hits; contradiction|].
  destruct (Nat.eqb_spec (length edge) (length p0)) as [Hlen|Hlen];
    cbn [negb] in Hm.
  - destruct (concat (p0 :: ps));
      [inversion Hm; subst hits; contradiction|].
    destruct (JS.arrayLimit <? _);
      [inversion Hm; subst hits; contradiction|].
    split; [exact Hlen|]. unfold replicate in Hm.
    destruct (replicateFrom_In _ _ _ _ _ _ _ Hm Hin) as (mk & Hmk & Hh & Hc).
    exists mk. apply in_rev in Hmk. rewrite Hl in Hc. auto.
  - inversion Hm; subst hits. contradiction.
Qed.

Lemma forRules_In (graph : G) (edge : Hyperedge) (h : Match)
  (rs : list Rule) :
  forall (j : nat) (acc acc' : list Match) (c : completion),
    forRules graph j rs edge acc = (c, acc') -> In h acc' ->
    In h acc \/
    exists k rule c0 hits,
      nth_error rs k = Some rule /\
      matchRule graph (j + k) rule edge = (c0, hits) /\ In h hits.
Proof.
  induction rs as [|rule rs IH]; intros j acc acc' c Hf Hin; simpl in Hf.
  - inversion Hf; subst. now left.
  - destruct (matchRule graph j rule edge) as [c0 hits] eqn:Hm.
    assert (Hhere : In h (acc ++ hits) ->
              In h acc \/
              exists k rl c1 hs,
                nth_error (rule :: rs) k = Some rl /\
                matchRule graph (j + k) rl edge = (c1, hs) /\ In h hs).
    { intros Hacc. apply in_app_or in Hacc.
      destruct Hacc as [Hacc|Hh]; [now left|].
      right. exists O, rule, c0, hits. rewrite Nat.add_0_r. auto. }
    destruct c0.
    + destruct (IH _ _ _ _ Hf Hin)
        as [Hacc | (k & rl & c1 & hs & Hk & Hmk & Hh)].
      * now apply Hhere.
      * right. exists (S k), rl, c1, hs. rewrite Nat.add_succ_r. auto.
    + inversion Hf; subst. now apply Hhere.
Qed.

Lemma forEdges_In (graph : G) (rs : list Rule) (h : Match)
  (es : list Hyperedge) :
  forall (acc acc' : list Match) (c : completion),
    forEdges graph rs es acc = (c, acc') -> In h acc' ->
    In h acc \/
    exists edge k rule c0 hits,
      In edge es /\ nth_error rs k = Some rule /\
      matchRule graph k rule edge = (c0, hits) /\ In h hits.
Proof.
  induction es as [|edge es IH]; intros acc acc' c Hf Hin; simpl in Hf.
  - inversion Hf; subst. now left.
  - destruct (forRules graph 0 rs edge acc) as [[|] acc1] eqn:Hfr.
    + destruct (IH _ _ _ Hf Hin)
        as [Hacc | (e & k & rl & c1 & hs & He & Hk & Hm & Hh)].
      * destruct (forRules_In _ _ _ _ _ _ _ _ Hfr Hacc)
          as [Ha | (k & rl & c1 & hs & Hk & Hm & Hh)]; [now left|].
        right. exists edge, k, rl, c1, hs. simpl. auto.
      * right. exists e, k, rl, c1, hs. simpl. auto.
    + inversion Hf; subst.
      destruct (forRules_In _ _ _ _ _ _ _ _ Hfr Hin)
        as [Ha | (k & rl & c1 & hs & Hk & Hm & Hh)]; [now left|].
      right. exists edge, k, rl, c1, hs. simpl. auto.
Qed.

(** X1. Every hit the Match Finder leaves in the hit list, whether it
    returns or throws, carries no ordering key, names a rule that exists,
    and was derived from an edge of the graph of the arity of the rule's
    first pattern: its assignment is one of the mapping hypotheses seeded at
    that edge, has one slot per variable of the left-hand side, and the
    left-hand side under it is counted at least once. *)
Theorem findMatches_hits_sound (s s' : HRS G C) (c : completion) (h : Match) :
  findMatches s = (c, s') -> In h (matches s') ->
  order h = None /\
  exists rule edge,
    nth_error (rules s) (r h) = Some rule /\
    In edge (Spatial.edges (spatial s)) /\
    length edge = length (hd [] (lhs rule)) /\
    In (m h) (candidates (spatial s) rule edge) /\
    length (m h) = S (JS.max_of (concat (lhs rule))) /\
    (1 <= Spatial.count (spatial s)
            (mapper (spatial s) (lhs rule) (m h)))%nat.
Proof.
  unfold findMatches. intros Hf Hin.
  destruct (length (rules s) =? 0)%nat.
  { inversion Hf; subst. contradiction. }
  destruct (forEdges (spatial s) (rules s) (Spatial.edges (spatial s)) [])
    as [c0 ms] eqn:He.
  inversion Hf; subst c0 s'. simpl in Hin.
  destruct (forEdges_In _ _ _ _ _ _ _ He Hin)
    as [[] | (edge & k & rule & c1 & hits & Hedge & Hk & Hm & Hh)].
  destruct (matchRule_In _ _ _ _ _ _ _ Hm Hh) as (Hlen & mk & Hmk & -> & Hc).
  simpl. split; [reflexivity|]. exists rule, edge.
  repeat split; auto.
  pose proof (candidates_length (spatial s) rule edge) as Hall.
  rewrite Forall_forall in Hall. now apply Hall.
Qed.

Lemma findMatches_hit_length (s s' : HRS G C) (c : completion) (h : Match)
  (rule : Rule) :
  findMatches s = (c, s') -> In h (matches s') ->
  nth_error (rules s) (r h) = Some rule ->
  length (m h) = S (JS.max_of (concat (lhs rule))).
Proof.
  unfold findMatches. intros Hf Hin Hr.
  destruct (length (rules s) =? 0)%nat.
  { inversion Hf; subst. contradiction. }
  destruct (forEdges (spatial s) (rules s) (Spatial.edges (spatial s)) [])
    as [c0 ms] eqn:He.
  inversion Hf; subst c0 s'. simpl in Hin.
  destruct (forEdges_In _ _ _ _ _ _ _ He Hin)
    as [[] | (edge & k & rule' & c1 & hits & _ & Hk & Hm & Hh)].
  destruct (matchRule_In _ _ _ _ _ _ _ Hm Hh) as (_ & mk & Hmk & -> & _).
  simpl in Hr |- *. rewrite Hk in Hr. inversion Hr; subst rule'.
  pose proof (candidates_length (spatial s) rule edge) as Hall.
  rewrite Forall_forall in Hall. now apply Hall.
Qed.

(** X2. The left-hand side under the assignment of an emitted hit reads
    bound slots only, so substituting it gives the same edges whatever the
    graph has become; a variable above the largest left-hand-side variable
    [maxnum] is given, as long as the sums are computed without rounding
    ([exactFresh]), the fresh vertex [maxv + (v - maxnum)] of the graph at
    the time of substitution. *)
Theorem hit_substitution (s s' : HRS G C) (c : completion) (h : Match)
  (rule : Rule) :
  findMatches s = (c, s') -> In h (matches s') ->
  nth_error (rules s) (r h) = Some rule ->
  (forall graph' : G,
     mapper graph' (lhs rule) (m h) = mapper (spatial s) (lhs rule) (m h)) /\
  (forall (graph' : G) (v : nat),
     (JS.max_of (concat (lhs rule)) < v)%nat ->
     exactFresh graph' (m h) v ->
     mapVertex graph' (m h) v =
     Spatial.maxv graph'
     + Z.of_nat (v - JS.max_of (concat (lhs rule)))).
Proof.
  intros Hf Hin Hr.
  pose proof (findMatches_hit_length s s' c h rule Hf Hin Hr) as Hlen.
  split.
  - intros graph'. unfold mapper. apply map_ext_in. intros p Hp.
    apply map_ext_in. intros v Hv. unfold mapVertex.
    assert (Hle : (v <= JS.max_of (concat (lhs rule)))%nat).
    { apply max_of_ge. apply in_concat. eauto. }
    destruct (Nat.ltb_spec v (length (m h))); [reflexivity | lia].
  - intros graph' v Hv Hex. rewrite mapVertex_fresh by (assumption || lia).
    lia.
Qed.

Lemma forRules_empty_lhs (graph : G) (edge : Hyperedge) (rule : Rule)
  (rs : list Rule) :
  In rule rs -> lhs rule = [] ->
  forall j acc, fst (forRules graph j rs edge acc) = Thrown.
Proof.
  intros Hin Hl. induction rs as [|r0 rs IH]; [contradiction|].
  intros j acc. simpl.
  destruct (matchRule graph j r0 edge) as [[|] hits] eqn:Hm; [|reflexivity].
  destruct Hin as [->|Hin]; [|now apply IH].
  unfold matchRule in Hm. rewrite Hl in Hm. discriminate.
Qed.

(** The first rule is searched for at the first edge: if its left-hand
    side has no variable, or its largest variable needs an array longer than
    the language allows, the search throws there. *)
Lemma forRules_oversize (graph : G) (edge : Hyperedge) (rule : Rule)
  (rs : list Rule) (p0 : Pattern) (ps : list Pattern) (acc : list Match) :
  lhs rule = p0 :: ps -> length edge = length p0 ->
  concat (lhs rule) = [] \/
  JS.arrayLimit < Z.of_nat (JS.max_of (concat (lhs rule))) + 1 ->
  forRules graph 0 (rule :: rs) edge acc = (Thrown, acc).
Proof.
  intros Hl Hlen Hbad. cbn [forRules]. unfold matchRule. rewrite Hl in *.
  rewrite Hlen, Nat.eqb_refl. cbn [negb].
  destruct (concat (p0 :: ps)) as [|v vs]; [now rewrite app_nil_r|].
  destruct Hbad as [Hbad|Hbad]; [discriminate|].
  destruct (Z.ltb_spec JS.arrayLimit (Z.of_nat (JS.max_of (v :: vs)) + 1));
    [now rewrite app_nil_r | lia].
Qed.

(** X3. When the Match Finder throws.  If some rule has an empty left-hand
    side and the graph has an edge, it throws ([rule.lhs[0]] is undefined),
    and the graph is what it was.  If the first edge has the arity of the
    first pattern of the first rule, it throws with no hit found when that
    rule's left-hand side has no variable at all ([new Array(-Infinity)])
    and when its largest variable makes [maxnum + 1] exceed the length of an
    array. *)
Theorem findMatches_completion (s : HRS G C) :
  (forall rule,
     In rule (rules s) -> lhs rule = [] ->
     Spatial.edges (spatial s) <> [] ->
     fst (findMatches s) = Thrown /\
     spatial (snd (findMatches s)) = spatial s) /\
  (forall rule rs p0 ps edge es,
     rules s = rule :: rs -> lhs rule = p0 :: ps ->
     Spatial.edges (spatial s) = edge :: es ->
     length edge = length p0 ->
     concat (lhs rule) = [] \/
     JS.arrayLimit < Z.of_nat (JS.max_of (concat (lhs rule))) + 1 ->
     findMatches s = (Thrown, set_matches s [])).
Proof.
  split.
  - intros rule Hin Hl Hne. unfold findMatches.
    destruct (rules s) as [|r0 rs] eqn:Hrs; [contradiction|].
    cbn [length Nat.eqb].
    destruct (Spatial.edges (spatial s)) as [|edge es]; [congruence|].
    cbn [forEdges].
    pose proof (forRules_empty_lhs (spatial s) edge rule (r0 :: rs) Hin Hl
                  0 []) as Ht.
    destruct (forRules (spatial s) 0 (r0 :: rs) edge []) as [[|] acc1];
      [discriminate|]. split; reflexivity.
  - intros rule rs p0 ps edge es Hrs Hl He Hlen Hbad. unfold findMatches.
    rewrite Hrs, He. cbn [length Nat.eqb forEdges].
    now rewrite (forRules_oversize (spatial s) edge rule rs p0 ps [] Hl Hlen
                   Hbad).
Qed.

End FinderMore.

Lemma findMatches_hits_sound_witness :
  let s := Demo.system Demo.graph0 [Demo.rule0] [] 10 in
  findMatches s = (Normal, snd (findMatches s)) /\
  In Demo.hitA (matches (snd (findMatches s))) /\
  exists rule edge,
    nth_error (rules s) (r Demo.hitA) = Some rule /\
    In edge (Spatial.edges (spatial s)) /\
    length edge = length (hd [] (lhs rule)) /\
    In (m Demo.hitA) (candidates (spatial s) rule edge) /\
    length (m Demo.hitA) = S (JS.max_of (concat (lhs rule))) /\
    (1 <= Spatial.count (spatial s)
            (mapper (spatial s) (lhs rule) (m Demo.hitA)))%nat.
Proof.
  intros s. split; [reflexivity|]. split; [left; reflexivity|].
  exact (proj2 (findMatches_hits_sound s (snd (findMatches s)) Normal
                  Demo.hitA eq_refl (or_introl eq_refl))).
Defined.

Lemma hit_substitution_witness :
  let s := Demo.system Demo.graph0 [Demo.rule0] [] 10 in
  findMatches s = (Normal, snd (findMatches s)) /\
  In Demo.hitA (matches (snd (findMatches s))) /\
  nth_error (rules s) (r Demo.hitA) = Some Demo.rule0 /\
  (forall graph' : ListGraph.t,
     mapper graph' (lhs Demo.rule0) (m Demo.hitA) = [[1; 1; 2]; [2; 2; 3]]) /\
  exactFresh Demo.graph0 (m Demo.hitA) 4 /\
  mapVertex Demo.graph0 (m Demo.hitA) 4 = 4 + 1.
Proof.
  intros s.
  assert (Hf : findMatches s = (Normal, snd (findMatches s))) by reflexivity.
  assert (Hin : In Demo.hitA (matches (snd (findMatches s))))
    by (left; reflexivity).
  assert (Hr : nth_error (rules s) (r Demo.hitA) = Some Demo.rule0)
    by reflexivity.
  assert (Hex : exactFresh Demo.graph0 (m Demo.hitA) 4)
    by (vm_compute; repeat split; intros E; discriminate E).
  destruct (hit_substitution s (snd (findMatches s)) Normal Demo.hitA
              Demo.rule0 Hf Hin Hr) as (Hbound & Hfresh).
  split; [exact Hf|]. split; [exact Hin|]. split; [exact Hr|].
  split; [exact Hbound|]. split; [exact Hex|].
  exact (Hfresh Demo.graph0 4%nat ltac:(simpl; lia) Hex).
Defined.

(** A rule without left-hand side on the graph of the README, and a rule
    whose left-hand side [( )] has no variable on a graph with an edge of
    arity 0. *)
Lemma findMatches_completion_witness :
  let s := Demo.system Demo.graph0 [mkRule [] [[0; 0]]%nat] [] 10 in
  let t := Demo.system (ListGraph.mk [[]] (-1)) [mkRule [[]] []] [] 10 in
  fst (findMatches s) = Thrown /\
  findMatches t = (Thrown, set_matches t []).
Proof.
  intros s t.
  destruct (findMatches_completion s) as (Hempty & _).
  destruct (findMatches_completion t) as (_ & Hnovar).
  split.
  - exact (proj1 (Hempty (mkRule [] [[0; 0]]%nat) (or_introl eq_refl) eq_refl
                    ltac:(discriminate))).
  - exact (Hnovar (mkRule [[]] []) [] [] [] [] [] eq_refl eq_refl eq_refl
             eq_refl (or_introl eq_refl)).
Defined.

(** ** Match Processor: the textual comparison of patterns *)

Section FactorMore.

Lemma append_comma_split (s1 s2 r1 r2 : string) :
  (forall x y, s1 <> (x ++ "," ++ y)%string) ->
  (forall x y, s2 <> (x ++ "," ++ y)%string) ->
  (s1 ++ "," ++ r1 = s2 ++ "," ++ r2)%string ->
  s1 = s2 /\ r1 = r2.
Proof.
  revert s2. induction s1 as [|c s1 IH]; intros [|d s2] H1 H2 E; simpl in E.
  - inversion E. auto.
  - inversion E; subst. exfalso. apply (H2 EmptyString s2). reflexivity.
  - inversion E; subst. exfalso. apply (H1 EmptyString s1). reflexivity.
  - inversion E; subst. destruct (IH s2) as [-> ->]; auto.
    + intros x y Hx. apply (H1 (String d x) y). simpl. now rewrite Hx.
    + intros x y Hx. apply (H2 (String d x) y). simpl. now rewrite Hx.
Qed.

Lemma uint_no_comma (d : Decimal.uint) (x y : string) :
  NilEmpty.string_of_uint d <> (x ++ "," ++ y)%string.
Proof.
  revert x. induction d; intros [|c x] E; simpl in E; try discriminate;
    inversion E; subst; eapply IHd; eauto.
Qed.

(** The decimal text of an integer holds no comma, is not empty, and
    determines the integer. *)
Lemma toString_no_comma (z : Z) (x y : string) :
  JS.toString z <> (x ++ "," ++ y)%string.
Proof.
  unfold JS.toString, NilZero.string_of_int, NilZero.string_of_uint.
  destruct (Z.to_int z) as [d|d].
  - destruct d; try apply uint_no_comma.
    destruct x as [|c [|c' x]]; discriminate.
  - destruct x as [|c x]; [discriminate|]. simpl. intros E.
    inversion E; subst.
    destruct d;
      try (match goal with
           | Hd : NilEmpty.string_of_uint _ = _ |- _ =>
               exact (uint_no_comma _ _ _ Hd)
           end).
    destruct x as [|c [|c' x]]; discriminate.
Qed.

Lemma toString_nonempty (z : Z) : JS.toString z <> EmptyString.
Proof.
  unfold JS.toString, NilZero.string_of_int, NilZero.string_of_uint.
  destruct (Z.to_int z) as [d|d]; [|discriminate].
  destruct d; discriminate.
Qed.

Lemma toString_inj (a b : Z) : JS.toString a = JS.toString b -> a = b.
Proof.
  unfold JS.toString. intros E. apply DecimalZ.to_int_inj.
  assert (Hn : forall z, Z.to_int z <> Decimal.Pos Decimal.Nil /\
                         Z.to_int z <> Decimal.Neg Decimal.Nil).
  { intros [|p|p]; simpl; split; try discriminate; intros [= F];
      eapply DecimalPos.Unsigned.to_uint_nonnil; eauto. }
  apply (f_equal NilZero.int_of_string) in E.
  rewrite !NilZero.isi in E; try apply Hn. congruence.
Qed.

Lemma join_inj (a b : list Z) : JS.join a = JS.join b -> a = b.
Proof.
  unfold JS.join. revert b.
  induction a as [|x a IH]; intros [|y b] E.
  - reflexivity.
  - exfalso. simpl in E. destruct (List.map JS.toString b);
      [|destruct (JS.toString y) eqn:Ey; [|discriminate]];
      symmetry in E; now apply toString_nonempty in E || 
      now apply toString_nonempty in Ey.
  - exfalso. simpl in E. destruct (List.map JS.toString a);
      [|destruct (JS.toString x) eqn:Ex; [|discriminate]];
      now apply toString_nonempty in E ||
      now apply toString_nonempty in Ex.
  - destruct a as [|x2 a], b as [|y2 b]; cbn [List.map String.concat] in E.
    + apply toString_inj in E. now subst.
    + exfalso. exact (toString_no_comma x _ _ E).
    + exfalso. symmetry in E. exact (toString_no_comma y _ _ E).
    + apply append_comma_split in E; try apply toString_no_comma.
      destruct E as [Exy Et]. apply toString_inj in Exy. subst y.
      f_equal. apply IH. exact Et.
Qed.

Lemma joinPattern_inj (p q : Pattern) :
  joinPattern p = joinPattern q -> p = q.
Proof.
  unfold joinPattern. intros E. apply join_inj in E.
  revert q E. induction p as [|v p IH]; intros [|w q] E; simpl in E;
    try discriminate; [reflexivity|].
  inversion E. f_equal; [lia | now apply IH].
Qed.

Lemma includes_joined_iff (ps : list Pattern) (p : Pattern) :
  JS.includes (List.map joinPattern ps) (joinPattern p) = true <-> In p ps.
Proof.
  split; [|apply includes_joined].
  unfold JS.includes. intros Hin. apply existsb_exists in Hin.
  destruct Hin as (t & Ht & Heq). apply in_map_iff in Ht.
  destruct Ht as (q & <- & Hq). apply String.eqb_eq in Heq.
  apply joinPattern_inj in Heq. now subst.
Qed.

Lemma filter_all {A} (f : A -> bool) (l : list A) :
  (forall x, In x l -> f x = true) -> filter f l = l.
Proof.
  induction l as [|x l IH]; intros Hf; simpl; [reflexivity|].
  rewrite (Hf x (or_introl eq_refl)). f_equal. apply IH.
  intros y Hy. apply Hf. now right.
Qed.

Lemma factor_In (ps qs : list Pattern) (p : Pattern) :
  In p (filter (fun p => negb (JS.includes (List.map joinPattern qs)
                                           (joinPattern p))) ps)
  <-> In p ps /\ ~ In p qs.
Proof.
  rewrite filter_In, negb_true_iff.
  pose proof (includes_joined_iff qs p) as Hq.
  destruct (JS.includes (List.map joinPattern qs) (joinPattern p));
    intuition congruence.
Qed.

(** X4. Comparing patterns by their joined text is comparing them
    structurally: two patterns have the same text exactly when they are
    equal.  Hence factoring keeps, on each side and in order, exactly the
    patterns that do not occur on the other side. *)
Theorem factor_structural (rule : Rule) :
  (forall p q : Pattern, joinPattern p = joinPattern q <-> p = q) /\
  lhs (factor rule) =
    filter (fun p => if in_dec (list_eq_dec Nat.eq_dec) p (rhs rule)
                     then false else true) (lhs rule) /\
  rhs (factor rule) =
    filter (fun p => if in_dec (list_eq_dec Nat.eq_dec) p (lhs rule)
                     then false else true) (rhs rule) /\
  (forall p, In p (lhs (factor rule)) <->
             In p (lhs rule) /\ ~ In p (rhs rule)) /\
  (forall p, In p (rhs (factor rule)) <->
             In p (rhs rule) /\ ~ In p (lhs rule)).
Proof.
  assert (Hdec : forall (ps : list Pattern) (p : Pattern),
            negb (JS.includes (List.map joinPattern ps) (joinPattern p)) =
            if in_dec (list_eq_dec Nat.eq_dec) p ps then false else true).
  { intros ps p. destruct (in_dec (list_eq_dec Nat.eq_dec) p ps) as [Hi|Hn].
    - now rewrite (proj2 (includes_joined_iff ps p) Hi).
    - destruct (JS.includes (List.map joinPattern ps) (joinPattern p)) eqn:E;
        [|reflexivity]. apply includes_joined_iff in E. contradiction. }
  split; [|split; [|split; [|split]]].
  - intros p q. split; [apply joinPattern_inj | now intros ->].
  - unfold factor; simpl. apply filter_ext. intros p. apply Hdec.
  - unfold factor; simpl. apply filter_ext. intros p. apply Hdec.
  - intros p. apply factor_In.
  - intros p. apply factor_In.
Qed.

(** X5. Factoring leaves the two sides without a common pattern, and
    factoring a factored rule changes nothing. *)
Theorem factor_idempotent (rule : Rule) :
  (forall p, ~ (In p (lhs (factor rule)) /\ In p (rhs (factor rule)))) /\
  factor (factor rule) = factor rule.
Proof.
  assert (Hl : forall p, In p (lhs (factor rule)) <->
                         In p (lhs rule) /\ ~ In p (rhs rule))
    by (intros p; apply factor_In).
  assert (Hr : forall p, In p (rhs (factor rule)) <->
                         In p (rhs rule) /\ ~ In p (lhs rule))
    by (intros p; apply factor_In).
  split.
  - intros p [Hpl Hpr]. apply Hl in Hpl. apply Hr in Hpr. tauto.
  - unfold factor at 1. destruct (factor rule) as [l' r'] eqn:Hf.
    simpl in Hl, Hr |- *. f_equal; apply filter_all; intros p Hp;
      apply negb_true_iff;
      destruct (JS.includes _ (joinPattern p)) eqn:E; try reflexivity;
      apply includes_joined_iff in E.
    + apply Hl in Hp. apply Hr in E. tauto.
    + apply Hr in Hp. apply Hl in E. tauto.
Qed.

End FactorMore.

(** ** Scheduler: the other orderings *)

Section OrderingMore.

Context {G C : Type} `{Spatial.Store G} `{Causal.Store C}.

Variable Math_random : nat -> nat.

(** The comparator of the descending mode puts [a] first exactly when the
    key of [a] is not above the key of [b]. *)
Lemma descending_lex (a b : Match) :
  descending a b <= 0 <-> lexCompare (keyOf a) (keyOf b) <> Gt.
Proof.
  unfold descending. generalize (keyOf a) (keyOf b). clear a b.
  intros ka. induction ka as [|x ka IH]; intros [|y kb]; simpl length;
    cbn [firstDiff lexCompare].
  - split; [congruence | lia].
  - split; [congruence | lia].
  - split; [lia | congruence].
  - destruct (Z.eqb_spec x y) as [->|Hne].
    + rewrite Z.compare_refl, <- IH.
      destruct (firstDiff ka kb) as [[u v]|]; [tauto|]. lia.
    + destruct (Z.compare_spec x y); split; intros; try congruence; lia.
Qed.

Lemma lexCompare_flip (a b : list Z) :
  lexCompare a b <> Gt <-> lexCompare b a <> Lt.
Proof.
  rewrite (lexCompare_antisym a b).
  destruct (lexCompare b a); simpl; split; congruence.
Qed.

Lemma descending_total (x y : Match) :
  0 < descending x y -> descending y x <= 0.
Proof.
  intros Hgt. apply descending_lex.
  rewrite lexCompare_antisym.
  destruct (lexCompare (keyOf x) (keyOf y)) eqn:E; simpl; try congruence.
  assert (descending x y <= 0) by (apply descending_lex; congruence). lia.
Qed.

Lemma descending_trans (x y z : Match) :
  descending x y <= 0 -> descending y z <= 0 -> descending x z <= 0.
Proof.
  rewrite !descending_lex, !lexCompare_flip. intros Hxy Hyz.
  exact (lexCompare_trans _ _ _ Hyz Hxy).
Qed.

(** X6. In the descending mode the keyed hits are stably sorted so that the
    lexicographically smallest key comes first, a key coming after its
    proper prefixes: the result is a permutation of the keyed hits, no hit is
    followed by one with a smaller key, and hits with the same key keep
    their order. *)
Theorem descending_order (s : HRS G C) :
  eventordering s = "descending"%string ->
  Permutation (matches (orderEvents s))
              (List.map (attachOrder (causal s)) (matches s)) /\
  StronglySorted (fun a b => lexCompare (keyOf a) (keyOf b) <> Gt)
                 (matches (orderEvents s)) /\
  (forall k,
     filter (fun h => edge_eqb k (keyOf h)) (matches (orderEvents s)) =
     filter (fun h => edge_eqb k (keyOf h))
            (List.map (attachOrder (causal s)) (matches s))).
Proof.
  intros Hmode.
  assert (Hout : matches (orderEvents s) =
                 JS.sort descending
                   (List.map (attachOrder (causal s)) (matches s))).
  { unfold orderEvents. rewrite Hmode. reflexivity. }
  rewrite Hout. split; [|split].
  - apply sort_perm.
  - eapply StronglySorted_weaken; [|apply (sort_sorted descending)].
    + intros a b. apply descending_lex.
    + exact descending_total.
    + exact descending_trans.
  - intros k. apply sort_stable. intros x y Hx Hy.
    apply edge_eqb_eq in Hx, Hy. apply descending_lex.
    rewrite <- Hx, <- Hy, lexCompare_refl. congruence.
Qed.

(** X7. Rule ordering is the last sort, so the rule index is the primary
    key.  With more than one rule and the policy ["index"] the hits end up
    by increasing rule index, and the hits of one rule keep the order the
    event ordering gave them; ["indexrev"] is the mirror.  With at most one
    rule, or any other policy, the hit list is left as it is. *)
Theorem rule_ordering (s : HRS G C) :
  ((length (rules s) <= 1)%nat \/
   (ruleordering s <> "index"%string /\ ruleordering s <> "indexrev"%string)
   -> orderRules s = s) /\
  ((1 < length (rules s))%nat -> ruleordering s = "index"%string ->
   Permutation (matches (orderRules s)) (matches s) /\
   StronglySorted (fun a b => (r a <= r b)%nat) (matches (orderRules s)) /\
   forall i, filter (fun h => (r h =? i)%nat) (matches (orderRules s)) =
             filter (fun h => (r h =? i)%nat) (matches s)) /\
  ((1 < length (rules s))%nat -> ruleordering s = "indexrev"%string ->
   Permutation (matches (orderRules s)) (matches s) /\
   StronglySorted (fun a b => (r b <= r a)%nat) (matches (orderRules s)) /\
   forall i, filter (fun h => (r h =? i)%nat) (matches (orderRules s)) =
             filter (fun h => (r h =? i)%nat) (matches s)).
Proof.
  split; [|split].
  - intros Hoff. unfold orderRules.
    destruct (Nat.ltb_spec 1 (length (rules s))) as [Hlt|Hle];
      [|reflexivity].
    destruct Hoff as [Hle | [Hi Hr]]; [lia|].
    apply String.eqb_neq in Hi, Hr. now rewrite Hi, Hr.
  - intros Hlt Hmode. apply Nat.ltb_lt in Hlt.
    unfold orderRules. rewrite Hlt, Hmode. simpl. split; [|split].
    + apply sort_perm.
    + eapply StronglySorted_weaken;
        [|apply (sort_sorted (fun a b => Z.of_nat (r a) - Z.of_nat (r b)))].
      * intros a b Hab. simpl in Hab. lia.
      * intros x y. simpl. lia.
      * intros x y z. simpl. lia.
    + intros i. apply sort_stable. intros x y Hx Hy.
      apply Nat.eqb_eq in Hx, Hy. lia.
  - intros Hlt Hmode. apply Nat.ltb_lt in Hlt.
    unfold orderRules. rewrite Hlt, Hmode. simpl. split; [|split].
    + apply sort_perm.
    + eapply StronglySorted_weaken;
        [|apply (sort_sorted (fun a b => Z.of_nat (r b) - Z.of_nat (r a)))].
      * intros a b Hab. simpl in Hab. lia.
      * intros x y. simpl. lia.
      * intros x y z. simpl. lia.
    + intros i. apply sort_stable. intros x y Hx Hy.
      apply Nat.eqb_eq in Hx, Hy. lia.
Qed.

Lemma replace_at_app {A} (l1 l2 : list A) (x y : A) (i : nat) :
  length l1 = i ->
  firstn i (l1 ++ x :: l2) ++ y :: skipn (S i) (l1 ++ x :: l2)
  = l1 ++ y :: l2.
Proof.
  intros <-. rewrite firstn_app, firstn_all, Nat.sub_diag, firstn_0,
    app_nil_r.
  rewrite skipn_app. rewrite skipn_all2 by lia.
  replace (S (length l1) - length l1)%nat with 1%nat by lia. reflexivity.
Qed.

Lemma replace_at_mid {A} (l1 l2 l3 : list A) (x y z : A) (i : nat) :
  (length l1 + S (length l2))%nat = i ->
  firstn i (l1 ++ z :: l2 ++ x :: l3)
  ++ y :: skipn (S i) (l1 ++ z :: l2 ++ x :: l3)
  = l1 ++ z :: l2 ++ y :: l3.
Proof.
  intros Hi.
  assert (E : forall w, l1 ++ z :: l2 ++ w :: l3 = (l1 ++ z :: l2) ++ w :: l3)
    by (intros w; rewrite <- app_assoc; reflexivity).
  rewrite !E. apply replace_at_app. rewrite length_app. simpl. lia.
Qed.

Lemma swap_pair_perm {A} (l1 l2 l3 : list A) (x y : A) :
  Permutation (l1 ++ y :: l2 ++ x :: l3) (l1 ++ x :: l2 ++ y :: l3).
Proof.
  apply Permutation_app_head.
  rewrite <- (Permutation_middle l2 l3 x), <- (Permutation_middle l2 l3 y).
  apply perm_swap.
Qed.

(** The exchange of two slots rearranges the array. *)
Lemma swap_perm {A} (i j : nat) (a : list A) : Permutation (JS.swap i j a) a.
Proof.
  unfold JS.swap.
  destruct (nth_error a i) as [x|] eqn:Hx; [|reflexivity].
  destruct (nth_error a j) as [y|] eqn:Hy; [|reflexivity].
  destruct (Nat.lt_trichotomy i j) as [Hlt | [<- | Hgt]].
  - apply nth_error_split in Hx. destruct Hx as (l1 & r1 & -> & Hl1).
    rewrite nth_error_app2 in Hy by lia.
    replace (j - length l1)%nat with (S (j - S i)) in Hy by lia.
    simpl in Hy. apply nth_error_split in Hy.
    destruct Hy as (l2 & l3 & -> & Hl2).
    rewrite (replace_at_app l1 (l2 ++ y :: l3) x y i Hl1).
    rewrite (replace_at_mid l1 l2 l3 y x y j) by lia.
    apply swap_pair_perm.
  - rewrite Hx in Hy. inversion Hy; subst y.
    apply nth_error_split in Hx. destruct Hx as (l1 & r1 & -> & Hl1).
    rewrite (replace_at_app l1 r1 x x i Hl1).
    rewrite (replace_at_app l1 r1 x x i Hl1). reflexivity.
  - apply nth_error_split in Hy. destruct Hy as (l1 & r1 & -> & Hl1).
    rewrite nth_error_app2 in Hx by lia.
    replace (i - length l1)%nat with (S (i - S j)) in Hx by lia.
    simpl in Hx. apply nth_error_split in Hx.
    destruct Hx as (l2 & l3 & -> & Hl2).
    rewrite (replace_at_mid l1 l2 l3 x y y i) by lia.
    rewrite (replace_at_app l1 (l2 ++ y :: l3) y x j Hl1).
    apply swap_pair_perm.
Qed.

Lemma shuffleFrom_perm (i : nat) :
  forall (k : nat) (a : list Match),
    Permutation (shuffleFrom Math_random i k a) a.
Proof.
  induction i as [|i IH]; intros k a; simpl; [reflexivity|].
  rewrite IH. apply swap_perm.
Qed.

(** X8. Whatever the random draws, the shuffle rearranges the hit list
    without losing or repeating a hit, and so does the whole ordering of a
    round as far as rule and assignment go: the hits handed to the Match
    Processor are those the Match Finder found, each as often. *)
Theorem ordering_permutes (s : HRS G C) :
  Permutation (matches (shuffle Math_random s)) (matches s) /\
  Permutation
    (List.map (fun h => (r h, m h))
       (matches (orderRules (orderEvents (shuffle Math_random s)))))
    (List.map (fun h => (r h, m h)) (matches s)).
Proof.
  assert (Hs : Permutation (matches (shuffle Math_random s)) (matches s))
    by (simpl; apply shuffleFrom_perm).
  split; [exact Hs|].
  assert (He : forall t : HRS G C,
             Permutation (List.map (fun h => (r h, m h))
                                   (matches (orderEvents t)))
                         (List.map (fun h => (r h, m h)) (matches t))).
  { intros t.
    assert (Hk : List.map (fun h => (r h, m h))
                          (List.map (attachOrder (causal t)) (matches t))
                 = List.map (fun h => (r h, m h)) (matches t)).
    { rewrite map_map. apply map_ext. reflexivity. }
    unfold orderEvents.
    destruct (eventordering t =? "random")%string; [reflexivity|].
    destruct (eventordering t =? "ascending")%string;
      [|destruct (eventordering t =? "descending")%string];
      simpl; rewrite <- Hk; try reflexivity;
      apply Permutation_map, sort_perm. }
  assert (Hr : forall t : HRS G C,
             Permutation (matches (orderRules t)) (matches t)).
  { intros t. unfold orderRules.
    destruct (1 <? length (rules t))%nat; [|reflexivity].
    destruct (ruleordering t =? "index")%string;
      [|destruct (ruleordering t =? "indexrev")%string];
      simpl; try reflexivity; apply sort_perm. }
  rewrite (Permutation_map _ (Hr _)), He.
  now apply Permutation_map.
Qed.

End OrderingMore.

Lemma descending_order_witness :
  let s := set_matches
             (mkHRS (ListGraph.mk [] 2)
                    [EventLog.mkEvent [] [1] 0; EventLog.mkEvent [] [2] 0]
                    [] [] 1 0 10 [] "descending" "mixed" false false [] O)
             [mkMatch 0 [2] None; mkMatch 0 [1; 1] None; mkMatch 0 [1] None] in
  eventordering s = "descending"%string /\
  StronglySorted (fun a b => lexCompare (keyOf a) (keyOf b) <> Gt)
                 (matches (orderEvents s)).
Proof.
  intros s. split; [reflexivity|].
  exact (proj1 (proj2 (descending_order s eq_refl))).
Defined.

(** ** Scheduler: progress, exhaustion, cancellation *)

Section SchedulerMore.

Context {G C : Type} `{Spatial.Store G} `{Causal.Store C}.

Variable Math_random : nat -> nat.
Variable slice_budget : Z -> nat.

Lemma sameConfig_refl (s : HRS G C) : sameConfig s s.
Proof. unfold sameConfig. tauto. Qed.

Lemma sameConfig_trans (s1 s2 s3 : HRS G C) :
  sameConfig s1 s2 -> sameConfig s2 s3 -> sameConfig s1 s3.
Proof.
  unfold sameConfig. intros H1 H2.
  decompose [and] H1. decompose [and] H2. repeat split; congruence.
Qed.

Lemma ordered_frame (s : HRS G C) :
  let s' := orderRules (orderEvents (shuffle Math_random s)) in
  sameConfig s s' /\ step s' = step s /\ notices s' = notices s /\
  causal s' = causal s.
Proof.
  assert (He : forall t : HRS G C,
             sameConfig t (orderEvents t) /\ step (orderEvents t) = step t /\
             notices (orderEvents t) = notices t /\
             causal (orderEvents t) = causal t).
  { intros t. unfold orderEvents, sameConfig.
    destruct (eventordering t =? "random")%string; [tauto|].
    destruct (eventordering t =? "ascending")%string;
      [|destruct (eventordering t =? "descending")%string];
      simpl; tauto. }
  assert (Hr : forall t : HRS G C,
             sameConfig t (orderRules t) /\ step (orderRules t) = step t /\
             notices (orderRules t) = notices t /\
             causal (orderRules t) = causal t).
  { intros t. unfold orderRules, sameConfig.
    destruct (1 <? length (rules t))%nat; [|tauto].
    destruct (ruleordering t =? "index")%string;
      [|destruct (ruleordering t =? "indexrev")%string];
      simpl; tauto. }
  cbv zeta.
  destruct (Hr (orderEvents (shuffle Math_random s))) as (C2 & S2 & N2 & K2).
  destruct (He (shuffle Math_random s)) as (C1 & S1 & N1 & K1).
  split; [|split; [|split]].
  - eapply sameConfig_trans; [|exact C2].
    eapply sameConfig_trans; [|exact C1].
    unfold sameConfig. simpl. tauto.
  - rewrite S2, S1. reflexivity.
  - rewrite N2, N1. reflexivity.
  - rewrite K2, K1. reflexivity.
Qed.

(** A round keeps the configuration and the notices and advances the step
    by one. *)
Lemma round_frame (s : HRS G C) :
  sameConfig s (fst (round Math_random s)) /\
  step (fst (round Math_random s)) = step s + 1 /\
  notices (fst (round Math_random s)) = notices s.
Proof.
  unfold round.
  destruct (findMatches (set_step s (step s + 1))) as [c s2] eqn:Hf.
  pose proof (findMatches_eq _ _ _ Hf) as Hs2.
  assert (F2 : sameConfig s s2 /\ step s2 = step s + 1 /\
               notices s2 = notices s).
  { rewrite Hs2. unfold sameConfig. simpl. tauto. }
  destruct c; [|exact F2].
  destruct (length (matches s2) =? 0)%nat; [exact F2|].
  destruct (keysThrow (shuffle Math_random s2)) as [s3|] eqn:Hk.
  { apply keysThrow_frame in Hk. cbn [fst]. rewrite Hk.
    destruct F2 as (C2 & S2 & N2). unfold sameConfig in *. simpl. tauto. }
  destruct (ordered_frame s2) as (C5 & S5 & N5 & _).
  set (s5 := orderRules (orderEvents (shuffle Math_random s2))) in *.
  destruct (processMatches s5) as [c3 s3] eqn:Hp.
  unfold processMatches in Hp.
  apply processLoop_bound in Hp. destruct Hp as (Hctl & _).
  assert (F3 : sameConfig s s3 /\ step s3 = step s + 1 /\
               notices s3 = notices s).
  { destruct F2 as (C2 & S2 & N2).
    unfold sameControl in Hctl. decompose [and] Hctl.
    split; [|split; congruence].
    eapply sameConfig_trans; [exact C2|].
    eapply sameConfig_trans; [exact C5|].
    unfold sameConfig. tauto. }
  destruct c3; [destruct (eventcnt s3 >=? maxevents s3)|]; exact F3.
Qed.

Lemma slice_frame (budget : nat) :
  forall s : HRS G C,
    sameConfig s (fst (slice Math_random budget s)) /\
    step s + 1 <= step (fst (slice Math_random budget s))
      <= step s + 1 + Z.of_nat budget /\
    notices (fst (slice Math_random budget s)) = notices s.
Proof.
  induction budget as [|budget IH]; intros s; simpl;
    destruct (round_frame s) as (Cr & Sr & Nr);
    destruct (round Math_random s) as [s1 e]; cbn [fst] in *;
    destruct e; cbn [fst];
    try (split; [exact Cr|]; split; [lia | exact Nr]).
  destruct (IH s1) as (Ci & Si & Ni).
  split; [eapply sameConfig_trans; eassumption|]. split; [lia | congruence].
Qed.


(** X9. The Match Processor counts at most one event per hit, and it
    touches the graphs only when it counts: if the counter comes out as it
    went in, the whole state does. *)
Theorem processMatches_counts (s : HRS G C) :
  eventcnt s <= eventcnt (snd (processMatches s))
    <= eventcnt s + Z.of_nat (length (matches s)) /\
  (eventcnt (snd (processMatches s)) = eventcnt s ->
   snd (processMatches s) = s).
Proof.
  unfold processMatches.
  generalize (List.map factor (rules s)) as nol.
  generalize (matches s) as hits. intros hits nol. revert s.
  induction hits as [|h hits IH]; intros s; simpl; [split; [lia | auto]|].
  destruct (processHit nol s h) as [[s1 stop]|] eqn:Hp;
    [|simpl; split; [lia | auto]].
  destruct (processHit_cases _ _ _ _ _ Hp) as [[-> ->] | (Hctl & Hcnt & ->)].
  - destruct (IH s) as (Hb & Hs). split; [lia | exact Hs].
  - destruct (eventcnt s + 1 >=? maxevents s); cbn [snd].
    + split; lia.
    + destruct (IH s1) as (Hb & Hs). split; lia.
Qed.



(** X11. Exhaustion.  A slice whose first search finds no hit finishes the
    run: the two graphs and the counter are what they were, one step has
    been taken, the hit list is empty, and the progress and finished
    notices (when the callbacks were supplied) are the only trace. *)
Theorem rewrite_exhausted (s s1 : HRS G C) :
  findMatches (set_step s (step s + 1)) = (Normal, s1) ->
  matches s1 = [] ->
  exists s',
    rewrite Math_random slice_budget s = (s', Done) /\
    spatial s' = spatial s /\ causal s' = causal s /\
    eventcnt s' = eventcnt s /\ step s' = step s + 1 /\
    matches s' = [] /\
    notices s' =
      notices s ++ (if progressfn s then [Progress (eventcnt s)] else [])
                ++ (if finishedfn s then [Finished] else []).
Proof.
  intros Hf He.
  pose proof (findMatches_eq _ _ _ Hf) as Hs1. rewrite He in Hs1.
  assert (Hr : round Math_random s = (s1, Break)).
  { unfold round. rewrite Hf, He. reflexivity. }
  assert (Hs : forall b, slice Math_random b s = (s1, Normal)).
  { intros [|b]; simpl; now rewrite Hr. }
  unfold rewrite. rewrite Hs. rewrite Hs1.
  cbn [progressfn set_matches set_step eventcnt].
  destruct (progressfn s), (finishedfn s) eqn:Hff; cbn;
    rewrite ?Hff; eexists; (split; [reflexivity|]); cbn;
    rewrite <- ?app_assoc, ?app_nil_r; repeat split; reflexivity.
Qed.

Lemma round_at_budget (s : HRS G C) :
  eventcnt s + 1 >= maxevents s ->
  snd (round Math_random s) <> Continue /\
  eventcnt s <= eventcnt (fst (round Math_random s)) <= eventcnt s + 1.
Proof.
  intros Hge.
  destruct (findMatches (set_step s (step s + 1))) as [c s1] eqn:Hf.
  pose proof (findMatches_eq _ _ _ Hf) as Hs1.
  assert (Hc1 : eventcnt s1 = eventcnt s) by (rewrite Hs1; reflexivity).
  destruct c.
  - destruct (matches s1) as [|h rest] eqn:Hm.
    + unfold round. rewrite Hf, Hm. cbn. split; [discriminate | lia].
    + assert (Hne : matches s1 <> []) by congruence.
      destruct (keysThrow (shuffle Math_random s1)) as [s3|] eqn:Hk.
      * unfold round. rewrite Hf.
        destruct (length (matches s1) =? 0)%nat eqn:Hlen.
        { apply Nat.eqb_eq, length_zero_iff_nil in Hlen. contradiction. }
        rewrite Hk. cbn [fst snd]. apply keysThrow_frame in Hk.
        split; [discriminate|]. rewrite Hk.
        cbn [eventcnt set_matches shuffle set_randoms]. lia.
      * destruct (round_budget_reached Math_random s s1 Hge Hf Hne Hk)
          as (s' & h' & rule & Hr & Hc & _).
        rewrite Hr. cbn. split; [discriminate | lia].
  - unfold round. rewrite Hf. cbn. split; [discriminate | lia].
Qed.

(** X12. Cancellation.  [cancel] sets the budget to zero; the next slice
    is then the last one, never rescheduled, and it applies at most one
    more event.  The same holds of every slice entered at most one event
    below the budget. *)
Theorem cancel_stops (s : HRS G C) :
  0 <= eventcnt s ->
  maxevents (cancel s) = 0 /\
  snd (rewrite Math_random slice_budget (cancel s)) <> Rescheduled /\
  eventcnt s <= eventcnt (fst (rewrite Math_random slice_budget (cancel s)))
    <= eventcnt s + 1 /\
  (forall t : HRS G C,
     eventcnt t + 1 >= maxevents t ->
     snd (rewrite Math_random slice_budget t) <> Rescheduled /\
     eventcnt t <= eventcnt (fst (rewrite Math_random slice_budget t))
       <= eventcnt t + 1).
Proof.
  intros Hpos.
  assert (Hgen : forall t : HRS G C,
     eventcnt t + 1 >= maxevents t ->
     snd (rewrite Math_random slice_budget t) <> Rescheduled /\
     eventcnt t <= eventcnt (fst (rewrite Math_random slice_budget t))
       <= eventcnt t + 1).
  { intros t Hge.
    destruct (rewrite Math_random slice_budget t) as [t' e] eqn:Hw.
    pose proof (rewrite_spec Math_random slice_budget _ _ _ Hw)
      as (_ & _ & _ & Hre & _).
    cbn [fst snd]. split.
    - intros ->. specialize (Hre eq_refl). lia.
    - unfold rewrite in Hw.
      destruct (round_at_budget t Hge) as (Hnc & Hb).
      assert (Hs : forall b, fst (slice Math_random b t)
                             = fst (round Math_random t)).
      { intros [|b]; simpl;
          destruct (round Math_random t) as [u eu]; cbn [fst snd] in *;
          destruct eu; try reflexivity; congruence. }
      specialize (Hs (slice_budget (step t))).
      destruct (slice Math_random (slice_budget (step t)) t) as [u cu].
      cbn [fst] in Hs. subst u.
      destruct cu; [|inversion Hw; subst; exact Hb].
      destruct (progressfn (fst (round Math_random t)));
        cbn [matches eventcnt maxevents notify set_matches finishedfn] in Hw;
        match type of Hw with
        | (if ?b then _ else _) = _ => destruct b
        end;
        try match type of Hw with
            | ((if ?b then _ else _), _) = _ => destruct b
            end;
        inversion Hw; subst; cbn; exact Hb. }
  split; [reflexivity|].
  destruct (Hgen (cancel s)) as (Hn & Hb); [simpl; lia|].
  split; [exact Hn|]. split; [exact Hb | exact Hgen].
Qed.

Lemma rewrite_frame (s : HRS G C) :
  sameConfig s (fst (rewrite Math_random slice_budget s)).
Proof.
  unfold rewrite.
  destruct (slice_frame (slice_budget (step s)) s) as (Cs & _).
  destruct (slice Math_random (slice_budget (step s)) s) as [s1 c].
  cbn [fst] in Cs. destruct c; [|exact Cs].
  destruct (progressfn s1);
    cbn [matches eventcnt maxevents notify set_matches finishedfn];
    match goal with
    | |- context [if ?b then (_, Done) else _] => destruct b
    end; try destruct (finishedfn s1); cbn [fst];
    (eapply sameConfig_trans; [exact Cs|]); unfold sameConfig; simpl; tauto.
Qed.

(** X13. The trace of one slice.  A slice that does not throw clears the
    hit list and appends to the notices one progress notice carrying the
    counter it ends with (if a progress callback was supplied) and then,
    exactly when it finishes the run, the finished notice (if that callback
    was supplied).  A slice that throws notifies nothing.  In every case
    the rules, the budget, the ordering policies and the callbacks are
    untouched, and the step has advanced by at least one and at most one
    plus the number of further rounds the clock allowed. *)
Theorem rewrite_notices (s : HRS G C) :
  let s' := fst (rewrite Math_random slice_budget s) in
  let e := snd (rewrite Math_random slice_budget s) in
  sameConfig s s' /\
  step s + 1 <= step s' <= step s + 1 + Z.of_nat (slice_budget (step s)) /\
  (e <> Failed -> matches s' = []) /\
  notices s' =
    notices s ++
    match e with
    | Failed => []
    | Rescheduled => if progressfn s then [Progress (eventcnt s')] else []
    | Done => (if progressfn s then [Progress (eventcnt s')] else [])
              ++ (if finishedfn s then [Finished] else [])
    end.
Proof.
  cbv zeta. split; [apply rewrite_frame|].
  unfold rewrite.
  destruct (slice_frame (slice_budget (step s)) s) as (Cs & Ss & Ns).
  destruct (slice Math_random (slice_budget (step s)) s) as [s1 c].
  cbn [fst] in Cs, Ss, Ns.
  assert (Hp : progressfn s1 = progressfn s) by apply Cs.
  assert (Hq : finishedfn s1 = finishedfn s) by apply Cs.
  destruct c.
  2:{ cbn [fst snd]. rewrite app_nil_r.
      split; [exact Ss|]. split; [congruence | exact Ns]. }
  rewrite Hp. destruct (progressfn s);
    cbn [matches eventcnt maxevents notify set_matches finishedfn];
    match goal with
    | |- context [if ?b then (_, Done) else _] => destruct b
    end; rewrite ?Hq; try destruct (finishedfn s); cbn;
    rewrite ?Ns, <- ?app_assoc, ?app_nil_r;
    (split; [exact Ss|]); split; reflexivity.
Qed.

End SchedulerMore.


Lemma rewrite_exhausted_witness :
  let s := Demo.system Demo.graph0 [] [] 10 in
  let s1 := snd (findMatches (set_step s (step s + 1))) in
  findMatches (set_step s (step s + 1)) = (Normal, s1) /\
  matches s1 = [] /\
  exists s',
    rewrite (fun _ => O) (fun _ => O) s = (s', Done) /\
    spatial s' = spatial s /\ causal s' = causal s /\
    eventcnt s' = eventcnt s /\ step s' = step s + 1 /\
    matches s' = [] /\
    notices s' =
      notices s ++ (if progressfn s then [Progress (eventcnt s)] else [])
                ++ (if finishedfn s then [Finished] else []).
Proof.
  intros s s1.
  assert (Hf : findMatches (set_step s (step s + 1)) = (Normal, s1))
    by reflexivity.
  assert (He : matches s1 = []) by reflexivity.
  split; [exact Hf|]. split; [exact He|].
  exact (rewrite_exhausted (fun _ => O) (fun _ => O) s s1 Hf He).
Defined.

Lemma cancel_stops_witness :
  let s := Demo.system Demo.graph0 [Demo.rule0] [] 10 in
  0 <= eventcnt s /\
  snd (rewrite (fun _ => O) (fun _ => O) (cancel s)) <> Rescheduled.
Proof.
  intros s. split; [simpl; lia|].
  assert (Hpos : 0 <= eventcnt s) by (simpl; lia).
  exact (proj1 (proj2 (cancel_stops (fun _ => O) (fun _ => O) s Hpos))).
Defined.

(** ** Match Finder: completeness *)

Section FinderComplete.

Context {G C : Type} `{Spatial.Store G} `{Causal.Store C}.

(** Binding a pattern to the edge it denotes under [a] writes [a] at the
    variables of the pattern and leaves the other slots alone. *)
Lemma assign_nth (a : list Vertex) (p : Pattern) :
  forall (mp : list Vertex) (w : nat),
    (forall v, In v p -> (v < length mp)%nat) ->
    nth w (assign p (List.map (fun v => nth v a 0) p) mp) 0 =
    if in_dec Nat.eq_dec w p then nth w a 0 else nth w mp 0.
Proof.
  induction p as [|v p IH]; intros mp w Hin; [reflexivity|].
  cbn [assign List.map hd tl].
  assert (Hp : forall u, In u p -> (u < length mp)%nat)
    by (intros u Hu; apply Hin; now right).
  rewrite nth_set_at.
  2:{ rewrite assign_length by exact Hp. apply Hin. now left. }
  pose proof (IH mp w Hp) as Eih. unfold Vertex, Hyperedge in *.
  rewrite Eih. clear Eih.
  destruct (Nat.eqb_spec w v) as [->|Hne].
  - destruct (in_dec Nat.eq_dec v (v :: p)) as [_|Hn]; [reflexivity|].
    exfalso. apply Hn. now left.
  - destruct (in_dec Nat.eq_dec w p) as [Hi|Hn],
             (in_dec Nat.eq_dec w (v :: p)) as [Hi'|Hn'];
      try reflexivity.
    + exfalso. apply Hn'. now right.
    + exfalso. destruct Hi' as [Ev|Hi']; [congruence | contradiction].
Qed.

Lemma agreesOn_assign (a : list Vertex) (vars : list nat) (p : Pattern)
  (mp : list Vertex) :
  (forall v, In v p -> (v < length a)%nat) ->
  agreesOn a vars mp ->
  agreesOn a (vars ++ p)
           (assign p (List.map (fun v => nth v a 0) p) mp).
Proof.
  intros Hp [Hlen Hag].
  assert (Hp' : forall v, In v p -> (v < length mp)%nat)
    by (intros v Hv; rewrite Hlen; now apply Hp).
  split; [rewrite assign_length by exact Hp'; exact Hlen|].
  intros w. rewrite (assign_nth a p mp w Hp'), Hag.
  destruct (in_dec Nat.eq_dec w p) as [Hi|Hn],
           (in_dec Nat.eq_dec w vars) as [Hv|Hnv],
           (in_dec Nat.eq_dec w (vars ++ p)) as [Ha|Hna];
    try reflexivity;
    try (exfalso; apply Hna; apply in_or_app; tauto).
  exfalso. apply in_app_or in Ha. tauto.
Qed.

(** The edge a pattern denotes under [a] fits the template that a mapping
    hypothesis agreeing with [a] gives for it. *)
Lemma template_fits (graph : G) (a : list Vertex) (vars : list nat)
  (p : Pattern) (mp : list Vertex) :
  (forall v, In v p -> (v < length a)%nat) ->
  agreesOn a vars mp ->
  ListGraph.fits (hd [] (mapper graph [p] mp))
                 (List.map (fun v => nth v a 0) p) = true.
Proof.
  intros Hp [Hlen Hag]. cbn [mapper List.map hd].
  induction p as [|v p IH]; [reflexivity|].
  cbn [List.map ListGraph.fits].
  rewrite IH by (intros u Hu; apply Hp; now right).
  rewrite andb_true_r.
  assert (Hv : (v < length a)%nat) by (apply Hp; now left).
  unfold mapVertex. rewrite Hlen.
  destruct (Nat.ltb_spec v (length a)); [|lia].
  rewrite Hag.
  destruct (in_dec Nat.eq_dec v vars).
  - rewrite Z.eqb_refl. apply orb_true_r.
  - destruct (Nat.ltb_spec v (length a)); [reflexivity | lia].
Qed.

Section WithFind.

Variable graph : G.

(** The contract of [find] that the search relies on: an edge of the graph
    that fits a template is among the edges found for it. *)
Hypothesis find_complete :
  forall (template e : Hyperedge),
    In e (Spatial.edges graph) -> ListGraph.fits template e = true ->
    In e (Spatial.find graph template).

Lemma extend_reaches (a : list Vertex) (vars : list nat) (p : Pattern)
  (maps : list (list Vertex)) :
  (forall v, In v p -> (v < length a)%nat) ->
  In (List.map (fun v => nth v a 0) p) (Spatial.edges graph) ->
  (exists mp, In mp maps /\ agreesOn a vars mp) ->
  exists mp, In mp (extend graph maps p) /\ agreesOn a (vars ++ p) mp.
Proof.
  intros Hp He (mp & Hmp & Hag).
  exists (assign p (List.map (fun v => nth v a 0) p) mp). split.
  - unfold extend. apply in_flat_map. exists mp.
    split; [now apply -> in_rev|].
    apply in_map_iff. exists (List.map (fun v => nth v a 0) p).
    split; [reflexivity|]. apply -> in_rev.
    apply find_complete; [exact He|].
    now apply template_fits with vars.
  - now apply agreesOn_assign.
Qed.

Lemma fold_extend_reaches (a : list Vertex) (ps : list Pattern) :
  forall (vars : list nat) (maps : list (list Vertex)),
    (forall p v, In p ps -> In v p -> (v < length a)%nat) ->
    (forall p, In p ps ->
               In (List.map (fun v => nth v a 0) p) (Spatial.edges graph)) ->
    (exists mp, In mp maps /\ agreesOn a vars mp) ->
    exists mp, In mp (fold_left (extend graph) ps maps) /\
               agreesOn a (vars ++ concat ps) mp.
Proof.
  induction ps as [|p ps IH]; intros vars maps Hv He Hex; simpl.
  - now rewrite app_nil_r.
  - rewrite app_assoc. apply IH.
    + intros q v Hq. apply Hv. now right.
    + intros q Hq. apply He. now right.
    + apply extend_reaches; auto.
      * intros v. apply Hv. now left.
      * apply He. now left.
Qed.

(** An assignment that turns every pattern of the left-hand side into an
    edge of the graph is among the mapping hypotheses seeded at the edge of
    the first pattern. *)
Lemma candidates_reach (rule : Rule) (a : list Vertex) :
  length a = S (JS.max_of (concat (lhs rule))) ->
  (forall p, In p (lhs rule) ->
             In (List.map (fun v => nth v a 0) p) (Spatial.edges graph)) ->
  (forall v, (v < length a)%nat -> ~ In v (concat (lhs rule)) ->
             nth v a 0 = -1) ->
  In a (candidates graph rule
          (List.map (fun v => nth v a 0) (hd [] (lhs rule)))).
Proof.
  intros Hlen He Hunused.
  assert (Hv : forall p v, In p (lhs rule) -> In v p -> (v < length a)%nat).
  { intros p v Hp Hv. rewrite Hlen. apply Nat.lt_succ_r, max_of_ge.
    apply in_concat. eauto. }
  unfold candidates.
  set (n := JS.max_of (concat (lhs rule))) in *.
  assert (Hinit : agreesOn a [] (repeat (-1) (n + 1))).
  { split; [rewrite repeat_length; lia|].
    intros v. cbn [in_dec]. destruct (in_dec Nat.eq_dec v []) as [[]|_].
    destruct (Nat.ltb_spec v (length a)).
    - apply nth_repeat_lt. lia.
    - apply nth_overflow. rewrite repeat_length. lia. }
  assert (Hseed : agreesOn a ([] ++ hd [] (lhs rule))
            (assign (hd [] (lhs rule))
                    (List.map (fun v => nth v a 0) (hd [] (lhs rule)))
                    (repeat (-1) (n + 1)))).
  { apply agreesOn_assign; [|exact Hinit].
    destruct (lhs rule) as [|p0 ps]; [intros v []|].
    intros v. apply (Hv p0). now left. }
  destruct (fold_extend_reaches a (tl (lhs rule)) ([] ++ hd [] (lhs rule))
              [assign (hd [] (lhs rule))
                      (List.map (fun v => nth v a 0) (hd [] (lhs rule)))
                      (repeat (-1) (n + 1))])
    as (mp & Hmp & [Hl Hag]).
  - intros p v Hp. apply Hv. destruct (lhs rule); [contradiction | now right].
  - intros p Hp. apply He. destruct (lhs rule); [contradiction | now right].
  - eexists. split; [now left | exact Hseed].
  - assert (Hall : [] ++ hd [] (lhs rule) ++ concat (tl (lhs rule))
                   = concat (lhs rule))
      by (destruct (lhs rule); reflexivity).
    replace mp with a in Hmp; [exact Hmp|].
    apply nth_ext with (d := 0) (d' := 0); [congruence|].
    intros v Hvlt. rewrite Hag. rewrite <- app_assoc, Hall.
    destruct (in_dec Nat.eq_dec v (concat (lhs rule))) as [_|Hn];
      [reflexivity|].
    destruct (Nat.ltb_spec v (length a)); [|lia].
    now apply Hunused.
Qed.

End WithFind.

(** X15. Completeness of the search, for a store whose [find] returns every
    edge that fits the template (a negative entry being free).  Let [a] have
    one slot per variable of the left-hand side of rule [i], hold [-1] at the
    slots no pattern uses, and turn every pattern into an edge of the
    graph (the left-hand side not being empty).  Then a call that returns
    normally emits at least as many hits for [a] as the store counts copies
    of the substituted left-hand side. *)
Theorem findMatches_complete (s s' : HRS G C) (i : nat) (rule : Rule)
  (a : list Vertex) :
  (forall template e,
     In e (Spatial.edges (spatial s)) -> ListGraph.fits template e = true ->
     In e (Spatial.find (spatial s) template)) ->
  findMatches s = (Normal, s') ->
  nth_error (rules s) i = Some rule ->
  lhs rule <> [] ->
  length a = S (JS.max_of (concat (lhs rule))) ->
  (forall p, In p (lhs rule) ->
             In (List.map (fun v => nth v a 0) p)
                (Spatial.edges (spatial s))) ->
  (forall v, (v < length a)%nat -> ~ In v (concat (lhs rule)) ->
             nth v a 0 = -1) ->
  (Spatial.count (spatial s) (mapper (spatial s) (lhs rule) a)
   <= hitsFor i a (matches s'))%nat.
Proof.
  intros Hfind Hf Hr Hl Hlen He Hunused.
  pose proof (candidates_reach (spatial s) Hfind rule a Hlen He Hunused)
    as Hin.
  unfold findMatches in Hf.
  destruct (rules s) as [|r0 rs] eqn:Hrules; [destruct i; discriminate|].
  cbn [length Nat.eqb] in Hf.
  destruct (forEdges (spatial s) (r0 :: rs) (Spatial.edges (spatial s)) [])
    as [c ms] eqn:Hfe.
  inversion Hf; subst c s'. cbn [matches set_matches].
  rewrite (forEdges_hits _ i a _ rule Hr _ _ _ Hfe).
  assert (Hd : (1 <= list_sum (List.map (derivationsAt (spatial s) rule a)
                                        (Spatial.edges (spatial s))))%nat).
  { destruct (lhs rule) as [|p0 ps] eqn:Hlhs; [congruence|].
    cbn [hd] in Hin.
    specialize (He p0 (or_introl eq_refl)).
    apply in_split in He. destruct He as (l1 & l2 & ->).
    rewrite map_app, list_sum_app. cbn [List.map list_sum].
    assert (1 <= derivationsAt (spatial s) rule a
                   (List.map (fun v => nth v a 0%Z) p0))%nat as Hone.
    2:{ unfold list_sum. cbn [fold_right]. lia. }
    unfold derivationsAt. rewrite Hlhs. cbn [hd].
    rewrite length_map, Nat.eqb_refl.
    unfold occurrences.
    apply in_split in Hin. destruct Hin as (m1 & m2 & ->).
    rewrite filter_app, length_app. cbn [filter].
    rewrite (proj2 (edge_eqb_eq a a) eq_refl). simpl. lia. }
  unfold hitsFor. simpl. nia.
Qed.

End FinderComplete.

(** The list-based store finds every live edge that fits the template. *)
Lemma ListGraph_find_complete (g : ListGraph.t) (template e : Hyperedge) :
  In e (Spatial.edges g) -> ListGraph.fits template e = true ->
  In e (Spatial.find g template).
Proof.
  simpl. unfold ListGraph.find. intros Hin Hfit.
  apply filter_In. split; assumption.
Qed.

Lemma findMatches_complete_witness :
  let s := Demo.system Demo.graph0 [Demo.rule0] [] 10 in
  let a := [1; 2; 2; 3] in
  findMatches s = (Normal, snd (findMatches s)) /\
  nth_error (rules s) 0 = Some Demo.rule0 /\
  lhs Demo.rule0 <> [] /\
  length a = S (JS.max_of (concat (lhs Demo.rule0))) /\
  (Spatial.count (spatial s) (mapper (spatial s) (lhs Demo.rule0) a)
   <= hitsFor 0 a (matches (snd (findMatches s))))%nat.
Proof.
  intros s a.
  assert (Hf : findMatches s = (Normal, snd (findMatches s))) by reflexivity.
  assert (Hr : nth_error (rules s) 0 = Some Demo.rule0) by reflexivity.
  assert (Hl : lhs Demo.rule0 <> []) by discriminate.
  assert (Hlen : length a = S (JS.max_of (concat (lhs Demo.rule0))))
    by reflexivity.
  split; [exact Hf|]. split; [exact Hr|]. split; [exact Hl|].
  split; [exact Hlen|].
  apply (findMatches_complete s (snd (findMatches s)) 0 Demo.rule0 a
           (ListGraph_find_complete (spatial s)) Hf Hr Hl Hlen).
  - intros p [<-|[<-|[]]]; simpl; tauto.
  - intros v Hv Hn. exfalso. apply Hn.
    destruct v as [|[|[|[|v]]]]; simpl in *; try tauto. lia.
Defined.
